(** * Unscented Kalman filter ([src/ukf.cpp]): shallow embedding and properties

    The filter tracks a 5-dimensional state (position x/y, speed, heading,
    heading rate) from lidar and radar measurements.  The C++ code works on
    [double]s and on Eigen's dynamically sized [VectorXd] / [MatrixXd].

    Conventions of the embedding:
    - a [double] (and the [float] temporaries of the initialization branch)
      is an ideal real number of [R]; rounding, overflow, infinities and NaN
      are outside the model, and [M_PI] is [PI];
    - a point where real arithmetic has no value (division by zero, Cholesky
      factorization of a matrix that is not positive definite, inverse of a
      singular matrix) is an error of the [res] monad; the C++ program carries
      on from there with infinities, NaNs or whatever Eigen left behind;
    - an Eigen vector or matrix is its coefficient function; its dimensions
      are the ones the constructor fixes (5, 7, 15, ...), and the value of a
      coefficient function outside these dimensions carries no meaning;
    - the members [n_x_], [n_aug_], [lambda_] and the noise standard
      deviations are written by the constructor only, so they are constants. *)

From Stdlib Require Import Reals Lra Lia ZArith List Bool.
From Stdlib Require Import FunctionalExtensionality.
Import ListNotations.
Local Open Scope R_scope.

(** ** Errors *)

Inductive error : Type :=
| DivByZero        (* a quotient whose divisor is 0 *)
| NumericalIssue   (* Eigen's LLT: the matrix is not positive definite *)
| Singular.        (* inverse of a matrix whose determinant is 0 *)

Inductive res (A : Type) : Type :=
| Ok (a : A)
| Err (e : error).
Arguments Ok {A} a.
Arguments Err {A} e.

Definition bind {A B : Type} (c : res A) (k : A -> res B) : res B :=
  match c with
  | Ok a => k a
  | Err e => Err e
  end.

Notation "x <- c ;; k" := (bind c (fun x => k))
  (at level 61, c at next level, right associativity).

(** The quotient [a / b] of two doubles, when [b] is a run-time value. *)
Definition checked_div (a b : R) : res R :=
  if Req_dec_T b 0 then Err DivByZero else Ok (a / b).
Infix "/?" := checked_div (at level 40, left associativity).

Definition res_map {A B : Type} (f : A -> B) (c : res A) : res B :=
  match c with
  | Ok a => Ok (f a)
  | Err e => Err e
  end.

(** A stricter quotient, used to state that a divisor is never small: it
    refuses every divisor of magnitude at most [eps]. *)
Definition guarded_div (eps a b : R) : res R :=
  if Rle_dec (Rabs b) eps then Err DivByZero else Ok (a / b).

(** ** Loops *)

(** [for (int i = lo; i < lo + n; i++) acc = body i acc] *)
Definition for_from {S : Type} (lo n : nat) (body : nat -> S -> S) (init : S) : S :=
  fold_left (fun acc i => body i acc) (seq lo n) init.

Definition for_loop {S : Type} (n : nat) (body : nat -> S -> S) (init : S) : S :=
  for_from 0 n body init.

(** The same loop with a body that may fail: the first error ends it. *)
Definition for_res_from {S : Type} (lo n : nat) (body : nat -> S -> res S) (init : S)
  : res S :=
  fold_left (fun acc i => a <- acc ;; body i a) (seq lo n) (Ok init).

Definition for_res {S : Type} (n : nat) (body : nat -> S -> res S) (init : S) : res S :=
  for_res_from 0 n body init.

(** ** Vectors and matrices *)

Definition Vec : Type := nat -> R.
Definition Mat : Type := nat -> nat -> R.   (* row, then column *)

Definition vzero : Vec := fun _ => 0.
Definition mzero : Mat := fun _ _ => 0.

(** [v(i) = x] *)
Definition vset (v : Vec) (i : nat) (x : R) : Vec :=
  fun k => if Nat.eqb k i then x else v k.

(** [M(i,j) = x] *)
Definition set_coef (M : Mat) (i j : nat) (x : R) : Mat :=
  fun r c => if Nat.eqb r i && Nat.eqb c j then x else M r c.

(** [M.col(j)] and [M.col(j) = v] *)
Definition col (M : Mat) (j : nat) : Vec := fun r => M r j.
Definition set_col (M : Mat) (j : nat) (v : Vec) : Mat :=
  fun r c => if Nat.eqb c j then v r else M r c.

(** [v.head(n) = u] and [M.topLeftCorner(n,m) = A] *)
Definition set_head (n : nat) (u v : Vec) : Vec :=
  fun k => if Nat.ltb k n then u k else v k.
Definition set_topLeftCorner (n m : nat) (A M : Mat) : Mat :=
  fun r c => if Nat.ltb r n && Nat.ltb c m then A r c else M r c.

(** The comma initializers [v << a, b, c, d, e] and friends. *)
Definition vec2 (a b : R) : Vec :=
  fun k => match k with 0%nat => a | 1%nat => b | _ => 0 end.
Definition vec3 (a b c : R) : Vec :=
  fun k => match k with 0%nat => a | 1%nat => b | 2%nat => c | _ => 0 end.
Definition vec5 (a b c d e : R) : Vec :=
  fun k => match k with
           | 0%nat => a | 1%nat => b | 2%nat => c | 3%nat => d | 4%nat => e
           | _ => 0
           end.
(** Row-major: the rows of the initializer are given as vectors. *)
Definition mat_rows2 (r0 r1 : Vec) : Mat :=
  fun r => match r with 0%nat => r0 | 1%nat => r1 | _ => vzero end.
Definition mat_rows3 (r0 r1 r2 : Vec) : Mat :=
  fun r => match r with 0%nat => r0 | 1%nat => r1 | 2%nat => r2 | _ => vzero end.

Definition vadd (u v : Vec) : Vec := fun k => u k + v k.
Definition vsub (u v : Vec) : Vec := fun k => u k - v k.
Definition vscale (a : R) (v : Vec) : Vec := fun k => a * v k.

Definition madd (A B : Mat) : Mat := fun r c => A r c + B r c.
Definition msub (A B : Mat) : Mat := fun r c => A r c - B r c.
Definition transpose (A : Mat) : Mat := fun r c => A c r.
Definition Identity : Mat := fun r c => if Nat.eqb r c then 1 else 0.

(** [f 0 + f 1 + ... + f (n-1)] *)
Fixpoint sum_n (n : nat) (f : nat -> R) : R :=
  match n with
  | O => 0
  | S k => sum_n k f + f k
  end.

(** Products; [k] is the inner dimension (columns of [A]). *)
Definition mmul (k : nat) (A B : Mat) : Mat :=
  fun r c => sum_n k (fun l => A r l * B l c).
Definition mvmul (k : nat) (A : Mat) (v : Vec) : Vec :=
  fun r => sum_n k (fun l => A r l * v l).
(** [u * v.transpose()] *)
Definition outer (u v : Vec) : Mat := fun r c => u r * v c.

(** ** Angle normalization

    [while (a > M_PI) a -= 2. * M_PI;  while (a < -M_PI) a += 2. * M_PI;]
    The two loops are run with fuel; [None] means the fuel ran out. *)

Fixpoint while_above (fuel : nat) (a : R) : option R :=
  match fuel with
  | O => None
  | S k => if Rgt_dec a PI then while_above k (a - 2 * PI) else Some a
  end.

Fixpoint while_below (fuel : nat) (a : R) : option R :=
  match fuel with
  | O => None
  | S k => if Rlt_dec a (- PI) then while_below k (a + 2 * PI) else Some a
  end.

Definition normalize_fuel (fuel : nat) (a : R) : option R :=
  match while_above fuel a with
  | Some b => while_below fuel b
  | None => None
  end.

(** Enough fuel for both loops: one more than the number of whole turns in [a]. *)
Definition turns (a : R) : nat := S (Z.to_nat (up (Rabs a / (2 * PI)))).

Definition normalize_angle (a : R) : R :=
  match normalize_fuel (turns a) a with
  | Some b => b
  | None => a
  end.

(** ** Library routines

    Eigen and the C math library are not part of [src/ukf.cpp]; the routines
    the filter calls are modelled by their mathematical contract. *)

(** Modelled from the spec: Eigen's [A.llt().matrixL()], which is not under
    [src/]; "the lower Cholesky factor L of the augmented covariance (requires
    the matrix be positive definite)".  The factor is computed column by
    column; a pivot that is not positive is the failure of the factorization.
    [llt_factor] below shows that a result is a Cholesky factor. *)
Definition llt_column (A : Mat) (j : nat) (L : Mat) : res Mat :=
  let x := A j j - sum_n j (fun k => L j k * L j k) in
  if Rle_dec x 0 then Err NumericalIssue
  else
    let d := sqrt x in
    Ok (fun r c =>
          if Nat.eqb c j then
            if Nat.eqb r j then d
            else if Nat.ltb j r
                 then (A r j - sum_n j (fun k => L r k * L j k)) / d
                 else L r c
          else L r c).

Definition llt (n : nat) (A : Mat) : res Mat := for_res n (llt_column A) mzero.

(** Modelled from the spec: Eigen's [S.inverse()], which is not under [src/];
    the gains are "K = P_pred·Hᵗ·S⁻¹" and "K = Tc·S⁻¹".  The inverse is the
    adjugate over the determinant (expansion along the first row);
    [inverse_2_right] and [inverse_3_right] below show that it is an inverse. *)
Definition skip (i k : nat) : nat := if Nat.ltb k i then k else S k.
Definition minor (M : Mat) (i j : nat) : Mat := fun r c => M (skip i r) (skip j c).
Definition sign (k : nat) : R := if Nat.even k then 1 else -1.

Fixpoint det (n : nat) (M : Mat) : R :=
  match n with
  | O => 1
  | S k => sum_n (S k) (fun j => sign j * M 0%nat j * det k (minor M 0 j))
  end.

Definition inverse (n : nat) (M : Mat) : res Mat :=
  if Req_dec_T (det n M) 0 then Err Singular
  else Ok (fun r c => sign (r + c) * det (pred n) (minor M c r) / det n M).

(** Modelled from the spec: the C library's [atan2(y, x)], the "bearing =
    atan2(py, px)" of the radar measurement model: the angle of the point
    (x, y), in (-π, π] ([atan2_range] below). *)
Definition atan2 (y x : R) : R :=
  if Rlt_dec 0 x then atan (y / x)
  else if Rlt_dec x 0 then
         if Rle_dec 0 y then atan (y / x) + PI else atan (y / x) - PI
       else if Rlt_dec 0 y then PI / 2
            else if Rlt_dec y 0 then - (PI / 2) else 0.

(** ** The filter object *)

(** Modelled from the spec: [measurement_package.h] is not under [src/]; "a
    sensor tag (radar | lidar), a raw-value vector (radar: range, bearing,
    range-rate; lidar: x, y), and a ... timestamp". *)
Inductive SensorType : Type := LASER | RADAR.

Record MeasurementPackage : Type := mkMeas {
  timestamp_ : Z;                 (* microseconds *)
  sensor_type_ : SensorType;
  raw_measurements_ : Vec
}.

(** Modelled from the spec: the member declarations of [ukf.h], which is not
    under [src/]; the members are the ones [src/ukf.cpp] reads and writes, a
    [double] for the spreading parameter [lambda_] ("weight[0] = λ/(λ+n_aug)")
    and integers for the dimensions. *)
Record UKF : Type := mkUKF {
  use_laser_ : bool;
  use_radar_ : bool;
  is_initialized_ : bool;
  x_pred_ : Vec;                  (* 5 *)
  P_pred_ : Mat;                  (* 5 x 5 *)
  Xsig_pred_ : Mat;               (* 5 x 15 *)
  weights_ : Vec;                 (* 15 *)
  Xsig_aug : Mat;                 (* 7 x 15 *)
  x_aug : Vec;                    (* 7 *)
  P_aug : Mat;                    (* 7 x 7 *)
  previous_timestamp_ : Z
}.

(** [int] to [double]. *)
Definition of_int (z : Z) : R := IZR z.

Definition n_x_ : nat := 5.
Definition n_aug_ : nat := 7.
Definition std_a_ : R := 3.80.
Definition std_yawdd_ : R := 0.3.
Definition std_laspx_ : R := 0.15.
Definition std_laspy_ : R := 0.15.
Definition std_radr_ : R := 0.3.
Definition std_radphi_ : R := 0.03.
Definition std_radrd_ : R := 0.3.
(** [lambda_ = 3 - n_aug_;] *)
Definition lambda_ : R := of_int (3 - Z.of_nat n_aug_).

(** [UKF::UKF()].  Eigen's [VectorXd(n)] and [MatrixXd(n, m)] allocate without
    initializing, and [previous_timestamp_] is not assigned: what these members
    hold after construction is whatever the memory held, here the members of
    [mem]. *)
Definition UKF_new (mem : UKF) : UKF :=
  {| use_laser_ := true;
     use_radar_ := true;
     is_initialized_ := false;
     x_pred_ := x_pred_ mem;
     P_pred_ := P_pred_ mem;
     Xsig_pred_ := Xsig_pred_ mem;
     weights_ := weights_ mem;
     Xsig_aug := Xsig_aug mem;
     x_aug := x_aug mem;
     P_aug := P_aug mem;
     previous_timestamp_ := previous_timestamp_ mem |}.

(** Assignments to single members. *)
Definition set_use_laser (b : bool) (s : UKF) : UKF :=
  mkUKF b (use_radar_ s) (is_initialized_ s) (x_pred_ s) (P_pred_ s)
        (Xsig_pred_ s) (weights_ s) (Xsig_aug s) (x_aug s) (P_aug s)
        (previous_timestamp_ s).
Definition set_use_radar (b : bool) (s : UKF) : UKF :=
  mkUKF (use_laser_ s) b (is_initialized_ s) (x_pred_ s) (P_pred_ s)
        (Xsig_pred_ s) (weights_ s) (Xsig_aug s) (x_aug s) (P_aug s)
        (previous_timestamp_ s).
Definition set_is_initialized (b : bool) (s : UKF) : UKF :=
  mkUKF (use_laser_ s) (use_radar_ s) b (x_pred_ s) (P_pred_ s)
        (Xsig_pred_ s) (weights_ s) (Xsig_aug s) (x_aug s) (P_aug s)
        (previous_timestamp_ s).
Definition set_x_pred (x : Vec) (s : UKF) : UKF :=
  mkUKF (use_laser_ s) (use_radar_ s) (is_initialized_ s) x (P_pred_ s)
        (Xsig_pred_ s) (weights_ s) (Xsig_aug s) (x_aug s) (P_aug s)
        (previous_timestamp_ s).
Definition set_P_pred (P : Mat) (s : UKF) : UKF :=
  mkUKF (use_laser_ s) (use_radar_ s) (is_initialized_ s) (x_pred_ s) P
        (Xsig_pred_ s) (weights_ s) (Xsig_aug s) (x_aug s) (P_aug s)
        (previous_timestamp_ s).
Definition set_Xsig_pred (X : Mat) (s : UKF) : UKF :=
  mkUKF (use_laser_ s) (use_radar_ s) (is_initialized_ s) (x_pred_ s) (P_pred_ s)
        X (weights_ s) (Xsig_aug s) (x_aug s) (P_aug s)
        (previous_timestamp_ s).
Definition set_weights (w : Vec) (s : UKF) : UKF :=
  mkUKF (use_laser_ s) (use_radar_ s) (is_initialized_ s) (x_pred_ s) (P_pred_ s)
        (Xsig_pred_ s) w (Xsig_aug s) (x_aug s) (P_aug s)
        (previous_timestamp_ s).
Definition set_Xsig_aug (X : Mat) (s : UKF) : UKF :=
  mkUKF (use_laser_ s) (use_radar_ s) (is_initialized_ s) (x_pred_ s) (P_pred_ s)
        (Xsig_pred_ s) (weights_ s) X (x_aug s) (P_aug s)
        (previous_timestamp_ s).
Definition set_x_aug (x : Vec) (s : UKF) : UKF :=
  mkUKF (use_laser_ s) (use_radar_ s) (is_initialized_ s) (x_pred_ s) (P_pred_ s)
        (Xsig_pred_ s) (weights_ s) (Xsig_aug s) x (P_aug s)
        (previous_timestamp_ s).
Definition set_P_aug (P : Mat) (s : UKF) : UKF :=
  mkUKF (use_laser_ s) (use_radar_ s) (is_initialized_ s) (x_pred_ s) (P_pred_ s)
        (Xsig_pred_ s) (weights_ s) (Xsig_aug s) (x_aug s) P
        (previous_timestamp_ s).
Definition set_previous_timestamp (t : Z) (s : UKF) : UKF :=
  mkUKF (use_laser_ s) (use_radar_ s) (is_initialized_ s) (x_pred_ s) (P_pred_ s)
        (Xsig_pred_ s) (weights_ s) (Xsig_aug s) (x_aug s) (P_aug s) t.

(** ** [UKF::GenerateSigmaPoints] *)

(** [x_aug.fill(0.0); x_aug.head(5) = x_pred_; x_aug(5) = 0; x_aug(6) = 0;] *)
Definition augmented_mean (s : UKF) : Vec :=
  vset (vset (set_head 5 (x_pred_ s) vzero) 5 0) 6 0.

(** [P_aug.fill(0.0); P_aug.topLeftCorner(5,5) = P_pred_;
     P_aug(5,5) = std_a_ * std_a_; P_aug(6,6) = std_yawdd_ * std_yawdd_;] *)
Definition augmented_covariance (s : UKF) : Mat :=
  set_coef
    (set_coef (set_topLeftCorner 5 5 (P_pred_ s) mzero) 5 5 (std_a_ * std_a_))
    6 6 (std_yawdd_ * std_yawdd_).

(** The sigma-point loop over the columns of [L]. *)
Definition sigma_columns (xa : Vec) (L : Mat) (X : Mat) : Mat :=
  for_loop n_aug_
    (fun i X =>
       let X1 :=
         set_col X (i + 1)
           (vadd xa (vscale (sqrt (lambda_ + of_int (Z.of_nat n_aug_))) (col L i))) in
       set_col X1 (i + 1 + n_aug_)
         (vsub xa (vscale (sqrt (lambda_ + of_int (Z.of_nat n_aug_))) (col L i))))
    X.

Definition GenerateSigmaPoints (s : UKF) : res UKF :=
  let xa := augmented_mean s in
  let Pa := augmented_covariance s in
  L <- llt n_aug_ Pa ;;
  let X0 := set_col mzero 0 xa in
  Ok (set_Xsig_aug (sigma_columns xa L X0) (set_P_aug Pa (set_x_aug xa s))).

(** ** [UKF::PredictSigmaPoints] *)

(** The body of the loop: column [i] of [Xsig_aug] through the process model.
    [div] is the quotient of two doubles; the code's is [checked_div]. *)
Definition predict_column_with (div : R -> R -> res R)
           (X : Mat) (i : nat) (delta_t : R) : res Vec :=
  let p_x := X 0%nat i in
  let p_y := X 1%nat i in
  let v := X 2%nat i in
  let yaw := X 3%nat i in
  let yawd := X 4%nat i in
  let nu_a := X 5%nat i in
  let nu_yawdd := X 6%nat i in
  p <- (if Rgt_dec (Rabs yawd) 0.001 then
          qx <- div v yawd ;;
          qy <- div v yawd ;;
          Ok (p_x + qx * (sin (yaw + yawd * delta_t) - sin yaw),
              p_y + qy * (cos yaw - cos (yaw + yawd * delta_t)))
        else
          Ok (p_x + (v * delta_t * cos yaw),
              p_y + (v * delta_t * sin yaw))) ;;
  let px_p := fst p in
  let py_p := snd p in
  let v_p := v in
  let yaw_p := yaw + yawd * delta_t in
  let yawd_p := yawd in
  let px_p := px_p + (0.5 * nu_a * delta_t * delta_t * cos yaw) in
  let py_p := py_p + (0.5 * nu_a * delta_t * delta_t * sin yaw) in
  let v_p := v_p + nu_a * delta_t in
  let yaw_p := yaw_p + (0.5 * nu_yawdd * delta_t * delta_t) in
  let yawd_p := yawd_p + (nu_yawdd * delta_t) in
  Ok (vec5 px_p py_p v_p yaw_p yawd_p).

Definition predict_column : Mat -> nat -> R -> res Vec :=
  predict_column_with checked_div.

(** [Xsig_pred_(0,i) = px_p; ... Xsig_pred_(4,i) = yawd_p;] *)
Definition write_column (X : Mat) (i : nat) (c : Vec) : Mat :=
  set_coef
    (set_coef
       (set_coef (set_coef (set_coef X 0 i (c 0%nat)) 1 i (c 1%nat)) 2 i (c 2%nat))
       3 i (c 3%nat))
    4 i (c 4%nat).

Definition PredictSigmaPoints (s : UKF) (n_aug : nat) (delta_t : R) : res UKF :=
  X <- for_res (1 + 2 * n_aug)
         (fun i X => c <- predict_column (Xsig_aug s) i delta_t ;;
                     Ok (write_column X i c))
         (Xsig_pred_ s) ;;
  Ok (set_Xsig_pred X s).

(** ** [UKF::PredictMeanAndCovariance] *)

(** [weights_(0) = lambda_ / (lambda_ + n_aug_);
     for (i = 1; i < 2 * n_aug_ + 1; i++) weights_(i) = 0.5 / (n_aug_ + lambda_);] *)
Definition compute_weights (w : Vec) : res Vec :=
  w0 <- lambda_ /? (lambda_ + of_int (Z.of_nat n_aug_)) ;;
  for_res_from 1 (2 * n_aug_)
    (fun i w => q <- 0.5 /? (of_int (Z.of_nat n_aug_) + lambda_) ;; Ok (vset w i q))
    (vset w 0 w0).

(** The weighted mean of the columns of [X]. *)
Definition weighted_mean (w : Vec) (X : Mat) : Vec :=
  for_loop (2 * n_aug_ + 1) (fun i x => vadd x (vscale (w i) (col X i))) vzero.

(** The weighted covariance, the heading residual normalized. *)
Definition weighted_covariance (w : Vec) (X : Mat) (x : Vec) : Mat :=
  for_loop (2 * n_aug_ + 1)
    (fun i P =>
       let x_diff := vsub (col X i) x in
       let x_diff := vset x_diff 3 (normalize_angle (x_diff 3%nat)) in
       madd P (outer (vscale (w i) x_diff) x_diff))
    mzero.

Definition PredictMeanAndCovariance (s : UKF) : res UKF :=
  w <- compute_weights (weights_ s) ;;
  let x := weighted_mean w (Xsig_pred_ s) in
  let P := weighted_covariance w (Xsig_pred_ s) x in
  Ok (set_P_pred P (set_x_pred x (set_weights w s))).

(** ** [UKF::Prediction] *)

Definition Prediction (s : UKF) (delta_t : R) : res UKF :=
  s1 <- GenerateSigmaPoints s ;;
  s2 <- PredictSigmaPoints s1 n_aug_ delta_t ;;
  PredictMeanAndCovariance s2.

(** ** [UKF::UpdateLidar] *)

Definition UpdateLidar (s : UKF) (meas_package : MeasurementPackage) : res UKF :=
  let H_ := mat_rows2 (vec5 1 0 0 0 0) (vec5 0 1 0 0 0) in
  let R_ := mat_rows2 (vec2 0.0225 0) (vec2 0 0.0225) in
  let z := raw_measurements_ meas_package in
  let z_pred := mvmul 5 H_ (x_pred_ s) in
  let y := vsub z z_pred in
  let Ht := transpose H_ in
  let S := madd (mmul 5 (mmul 5 H_ (P_pred_ s)) Ht) R_ in
  Si <- inverse 2 S ;;
  let PHt := mmul 5 (P_pred_ s) Ht in
  let K := mmul 2 PHt Si in
  let x := vadd (x_pred_ s) (mvmul 2 K y) in
  let I := Identity in
  let P := mmul 5 (msub I (mmul 2 K H_)) (P_pred_ s) in
  Ok (set_P_pred P (set_x_pred x s)).

(** ** [UKF::UpdateRadar] *)

(** The body of the first loop: predicted sigma point [i] in measurement space. *)
Definition radar_column (X : Mat) (i : nat) : res Vec :=
  let p_x := X 0%nat i in
  let p_y := X 1%nat i in
  let v := X 2%nat i in
  let yaw := X 3%nat i in
  let v1 := cos yaw * v in
  let v2 := sin yaw * v in
  rho_dot <- (p_x * v1 + p_y * v2) /? sqrt (p_x * p_x + p_y * p_y) ;;
  Ok (vec3 (sqrt (p_x * p_x + p_y * p_y)) (atan2 p_y p_x) rho_dot).

Definition radar_sigma_points (X : Mat) : res Mat :=
  for_res (2 * n_aug_ + 1)
    (fun i Z => c <- radar_column X i ;;
                Ok (set_coef (set_coef (set_coef Z 0 i (c 0%nat)) 1 i (c 1%nat))
                             2 i (c 2%nat)))
    mzero.

Definition UpdateRadar (s : UKF) (meas_package : MeasurementPackage) : res UKF :=
  Zsig <- radar_sigma_points (Xsig_pred_ s) ;;
  let w := weights_ s in
  let z_pred := weighted_mean w Zsig in
  let S :=
    for_loop (2 * n_aug_ + 1)
      (fun i S =>
         let z_diff := vsub (col Zsig i) z_pred in
         let z_diff := vset z_diff 1 (normalize_angle (z_diff 1%nat)) in
         madd S (outer (vscale (w i) z_diff) z_diff))
      mzero in
  let R := mat_rows3 (vec3 (std_radr_ * std_radr_) 0 0)
                     (vec3 0 (std_radphi_ * std_radphi_) 0)
                     (vec3 0 0 (std_radrd_ * std_radrd_)) in
  let S := madd S R in
  let z := raw_measurements_ meas_package in
  let Tc :=
    for_loop (2 * n_aug_ + 1)
      (fun i Tc =>
         let z_diff := vsub (col Zsig i) z_pred in
         let z_diff := vset z_diff 1 (normalize_angle (z_diff 1%nat)) in
         let x_diff := vsub (col (Xsig_pred_ s) i) (x_pred_ s) in
         let x_diff := vset x_diff 3 (normalize_angle (x_diff 3%nat)) in
         madd Tc (outer (vscale (w i) x_diff) z_diff))
      mzero in
  Si <- inverse 3 S ;;
  let K := mmul 3 Tc Si in
  let z_diff := vsub z z_pred in
  let z_diff := vset z_diff 1 (normalize_angle (z_diff 1%nat)) in
  let x := vadd (x_pred_ s) (mvmul 3 K z_diff) in
  let P := msub (P_pred_ s) (mmul 3 (mmul 3 K S) (transpose K)) in
  Ok (set_P_pred P (set_x_pred x s)).

(** ** [UKF::ProcessMeasurement] *)

Definition ProcessMeasurement (s : UKF) (meas_package : MeasurementPackage) : res UKF :=
  if negb (is_initialized_ s) then
    let s1 :=
      match sensor_type_ meas_package with
      | RADAR =>
          let rho := raw_measurements_ meas_package 0%nat in
          let phi := raw_measurements_ meas_package 1%nat in
          let px := rho * cos phi in
          let py := rho * sin phi in
          set_x_pred (vec5 px py 0 0 0) s
      | LASER =>
          set_x_pred (vec5 (raw_measurements_ meas_package 0%nat)
                           (raw_measurements_ meas_package 1%nat) 0 0 0) s
      end in
    let s2 := set_previous_timestamp (timestamp_ meas_package) s1 in
    Ok (set_is_initialized true s2)
  else
    let delta_t :=
      IZR (timestamp_ meas_package - previous_timestamp_ s) / 1000000.0 in
    s1 <- Prediction s delta_t ;;
    s2 <- match sensor_type_ meas_package with
          | RADAR => UpdateRadar s1 meas_package
          | LASER => UpdateLidar s1 meas_package
          end ;;
    Ok (set_previous_timestamp (timestamp_ meas_package) s2).

(** The states [ProcessMeasurement] produces: those a run of calls leads to
    from a freshly constructed filter. *)
Inductive reachable : UKF -> Prop :=
| reach_first : forall mem m s,
    ProcessMeasurement (UKF_new mem) m = Ok s -> reachable s
| reach_next : forall s m s',
    reachable s -> ProcessMeasurement s m = Ok s' -> reachable s'.

(** ** The process model in closed form

    The two branches of [predict_column], written with the plain quotient of
    [R]; [predict_column_ok] below shows that the loop body computes them. *)

(** Turning: closed-form integration, with the quotient [v / yawd]. *)
Definition turning (X : Mat) (i : nat) (delta_t : R) : Vec :=
  let p_x := X 0%nat i in
  let p_y := X 1%nat i in
  let v := X 2%nat i in
  let yaw := X 3%nat i in
  let yawd := X 4%nat i in
  let nu_a := X 5%nat i in
  let nu_yawdd := X 6%nat i in
  vec5 (p_x + v / yawd * (sin (yaw + yawd * delta_t) - sin yaw)
        + (0.5 * nu_a * delta_t * delta_t * cos yaw))
       (p_y + v / yawd * (cos yaw - cos (yaw + yawd * delta_t))
        + (0.5 * nu_a * delta_t * delta_t * sin yaw))
       (v + nu_a * delta_t)
       (yaw + yawd * delta_t + (0.5 * nu_yawdd * delta_t * delta_t))
       (yawd + (nu_yawdd * delta_t)).

(** Straight line: first-order integration, no quotient. *)
Definition straight (X : Mat) (i : nat) (delta_t : R) : Vec :=
  let p_x := X 0%nat i in
  let p_y := X 1%nat i in
  let v := X 2%nat i in
  let yaw := X 3%nat i in
  let yawd := X 4%nat i in
  let nu_a := X 5%nat i in
  let nu_yawdd := X 6%nat i in
  vec5 (p_x + (v * delta_t * cos yaw)
        + (0.5 * nu_a * delta_t * delta_t * cos yaw))
       (p_y + (v * delta_t * sin yaw)
        + (0.5 * nu_a * delta_t * delta_t * sin yaw))
       (v + nu_a * delta_t)
       (yaw + yawd * delta_t + (0.5 * nu_yawdd * delta_t * delta_t))
       (yawd + (nu_yawdd * delta_t)).

Definition process_model (X : Mat) (i : nat) (delta_t : R) : Vec :=
  if Rgt_dec (Rabs (X 4%nat i)) 0.001 then turning X i delta_t
  else straight X i delta_t.

(** The weights the loop of [compute_weights] leaves in [w]. *)
Definition weights_of (w : Vec) : Vec :=
  for_from 1 (2 * n_aug_)
    (fun i w => vset w i (0.5 / (of_int (Z.of_nat n_aug_) + lambda_)))
    (vset w 0 (lambda_ / (lambda_ + of_int (Z.of_nat n_aug_)))).

(** The predicted sigma points [PredictSigmaPoints] leaves in [Xsig_pred_]. *)
Definition predicted_points (Xaug Xpred : Mat) (delta_t : R) : Mat :=
  for_loop (1 + 2 * n_aug_)
    (fun i X => write_column X i (process_model Xaug i delta_t)) Xpred.

(** [L] is zero above its diagonal and from column [j] on. *)
Definition lower_upto (j : nat) (L : Mat) : Prop :=
  forall r c, (r < c)%nat \/ (j <= c)%nat -> L r c = 0.

(** The first [j] columns of [L] are those of a Cholesky factor of [A]. *)
Definition chol_upto (A : Mat) (j : nat) (L : Mat) : Prop :=
  lower_upto j L /\
  (forall c, (c < j)%nat -> 0 < L c c) /\
  (forall c r, (c < j)%nat -> (c <= r)%nat ->
               sum_n (S c) (fun k => L r k * L c k) = A r c).

(** [P] agrees with its transpose on the 5 x 5 block of the state. *)
Definition symmetric5 (P : Mat) : Prop :=
  forall r c, (r < 5)%nat -> (c < 5)%nat -> P r c = P c r.

(** The determinant of the lidar innovation covariance [S = H P H^T + R]. *)
Definition lidar_det (P : Mat) : R :=
  (P 0%nat 0%nat + 0.0225) * (P 1%nat 1%nat + 0.0225)
  - P 0%nat 1%nat * P 1%nat 0%nat.

(** Seconds between the stored timestamp and the measurement's. *)
Definition elapsed (s : UKF) (m : MeasurementPackage) : R :=
  IZR (timestamp_ m - previous_timestamp_ s) / 1000000.0.

(** What the lidar update adds to the heading: row 3 of [K * y]. *)
Definition lidar_heading_correction (s : UKF) (m : MeasurementPackage) : R :=
  (P_pred_ s 3%nat 0%nat
   * ((P_pred_ s 1%nat 1%nat + 0.0225)
        * (raw_measurements_ m 0%nat - x_pred_ s 0%nat)
      - P_pred_ s 0%nat 1%nat
        * (raw_measurements_ m 1%nat - x_pred_ s 1%nat))
   + P_pred_ s 3%nat 1%nat
     * ((P_pred_ s 0%nat 0%nat + 0.0225)
          * (raw_measurements_ m 1%nat - x_pred_ s 1%nat)
        - P_pred_ s 1%nat 0%nat
          * (raw_measurements_ m 0%nat - x_pred_ s 0%nat)))
  / lidar_det (P_pred_ s).

(** ** A run of the filter

    A filter whose memory held the covariance [run_P] at construction (position
    x and heading correlated), fed two lidar measurements one second apart. *)

Definition run_P : Mat :=
  fun r c =>
    match r, c with
    | 0%nat, 0%nat => 1 | 0%nat, 3%nat => 1
    | 1%nat, 1%nat => 1
    | 2%nat, 2%nat => 1
    | 3%nat, 0%nat => 1 | 3%nat, 3%nat => 2
    | 4%nat, 4%nat => 1
    | _, _ => 0
    end.

Definition run_mem : UKF :=
  mkUKF false false false vzero run_P mzero vzero mzero vzero mzero 0.

Definition run_first : MeasurementPackage := mkMeas 0 LASER (vec2 0 0).
Definition run_second : MeasurementPackage := mkMeas 1000000 LASER (vec2 100 0).
(** A radar measurement to take the place of the second lidar one. *)
Definition run_radar : MeasurementPackage := mkMeas 1000000 RADAR (vec3 1 0 0).

(** The filter after the first call, [b] being the lidar toggle. *)
Definition run_s1 (b : bool) : UKF :=
  mkUKF b true true (vec5 0 0 0 0 0) run_P mzero vzero mzero vzero mzero 0.

(** The Cholesky factor of the augmented covariance of [run_s1]. *)
Definition run_L : Mat :=
  fun r c =>
    match r, c with
    | 0%nat, 0%nat => 1
    | 1%nat, 1%nat => 1
    | 2%nat, 2%nat => 1
    | 3%nat, 0%nat => 1 | 3%nat, 3%nat => 1
    | 4%nat, 4%nat => 1
    | 5%nat, 5%nat => 3.80
    | 6%nat, 6%nat => 0.3
    | _, _ => 0
    end.

(** Its first [j] columns. *)
Definition run_L_upto (j : nat) : Mat :=
  fun r c => if Nat.ltb c j then run_L r c else 0.

(** The augmented sigma points of the second call, column by column. *)
Definition vec7 (a b c d e f g : R) : Vec :=
  fun k => match k with
           | 0%nat => a | 1%nat => b | 2%nat => c | 3%nat => d | 4%nat => e
           | 5%nat => f | 6%nat => g
           | _ => 0
           end.

Definition run_Xaug : Mat :=
  fun r k =>
    match k with
    | 0%nat => vzero
    | 1%nat => vec7 (sqrt 3) 0 0 (sqrt 3) 0 0 0
    | 2%nat => vec7 0 (sqrt 3) 0 0 0 0 0
    | 3%nat => vec7 0 0 (sqrt 3) 0 0 0 0
    | 4%nat => vec7 0 0 0 (sqrt 3) 0 0 0
    | 5%nat => vec7 0 0 0 0 (sqrt 3) 0 0
    | 6%nat => vec7 0 0 0 0 0 (3.80 * sqrt 3) 0
    | 7%nat => vec7 0 0 0 0 0 0 (0.3 * sqrt 3)
    | 8%nat => vec7 (- sqrt 3) 0 0 (- sqrt 3) 0 0 0
    | 9%nat => vec7 0 (- sqrt 3) 0 0 0 0 0
    | 10%nat => vec7 0 0 (- sqrt 3) 0 0 0 0
    | 11%nat => vec7 0 0 0 (- sqrt 3) 0 0 0
    | 12%nat => vec7 0 0 0 0 (- sqrt 3) 0 0
    | 13%nat => vec7 0 0 0 0 0 (- (3.80 * sqrt 3)) 0
    | 14%nat => vec7 0 0 0 0 0 0 (- (0.3 * sqrt 3))
    | _ => vzero
    end r.

(** The same points after one second of the process model. *)
Definition run_Xpred : Mat :=
  fun r k =>
    match k with
    | 0%nat => vzero
    | 1%nat => vec5 (sqrt 3) 0 0 (sqrt 3) 0
    | 2%nat => vec5 0 (sqrt 3) 0 0 0
    | 3%nat => vec5 (sqrt 3) 0 (sqrt 3) 0 0
    | 4%nat => vec5 0 0 0 (sqrt 3) 0
    | 5%nat => vec5 0 0 0 (sqrt 3) (sqrt 3)
    | 6%nat => vec5 (1.9 * sqrt 3) 0 (3.80 * sqrt 3) 0 0
    | 7%nat => vec5 0 0 0 (0.15 * sqrt 3) (0.3 * sqrt 3)
    | 8%nat => vec5 (- sqrt 3) 0 0 (- sqrt 3) 0
    | 9%nat => vec5 0 (- sqrt 3) 0 0 0
    | 10%nat => vec5 (- sqrt 3) 0 (- sqrt 3) 0 0
    | 11%nat => vec5 0 0 0 (- sqrt 3) 0
    | 12%nat => vec5 0 0 0 (- sqrt 3) (- sqrt 3)
    | 13%nat => vec5 (- (1.9 * sqrt 3)) 0 (- (3.80 * sqrt 3)) 0 0
    | 14%nat => vec5 0 0 0 (- (0.15 * sqrt 3)) (- (0.3 * sqrt 3))
    | _ => vzero
    end r.


(** * Properties *)

(** ** Angle normalization *)

Lemma PI_gt_3 : 3 < PI.
Proof. pose proof PI2_3_2. lra. Qed.

Lemma while_above_enough (n : nat) :
  forall a, a <= PI + 2 * PI * INR n ->
    exists b, while_above (S n) a = Some b /\ b <= PI /\
              (a <= PI -> b = a) /\ (PI < a -> - PI < b).
Proof.
  induction n as [|n IH]; intros a Ha.
  - simpl in Ha. exists a. simpl.
    destruct (Rgt_dec a PI) as [Hgt|Hle]; [lra|].
    repeat split; try lra.
  - rewrite S_INR in Ha.
    change (while_above (S (S n)) a)
      with (if Rgt_dec a PI then while_above (S n) (a - 2 * PI) else Some a).
    destruct (Rgt_dec a PI) as [Hgt|Hle].
    + destruct (IH (a - 2 * PI)) as (b & Hb & Hle & Hsame & Hmore); [lra|].
      exists b. split; [exact Hb|]. split; [exact Hle|]. split; [lra|].
      intros _. destruct (Rle_or_lt (a - 2 * PI) PI) as [H1|H1].
      * rewrite (Hsame H1). lra.
      * auto.
    + exists a. repeat split; lra.
Qed.

Lemma while_below_enough (n : nat) :
  forall a, - PI - 2 * PI * INR n <= a ->
    exists b, while_below (S n) a = Some b /\ - PI <= b /\
              (- PI <= a -> b = a) /\ (a < - PI -> b < PI).
Proof.
  induction n as [|n IH]; intros a Ha.
  - simpl in Ha. exists a. simpl.
    destruct (Rlt_dec a (- PI)) as [Hlt|Hge]; [lra|].
    repeat split; try lra.
  - rewrite S_INR in Ha.
    change (while_below (S (S n)) a)
      with (if Rlt_dec a (- PI) then while_below (S n) (a + 2 * PI) else Some a).
    destruct (Rlt_dec a (- PI)) as [Hlt|Hge].
    + destruct (IH (a + 2 * PI)) as (b & Hb & Hge & Hsame & Hless); [lra|].
      exists b. split; [exact Hb|]. split; [exact Hge|]. split; [lra|].
      intros _. destruct (Rle_or_lt (- PI) (a + 2 * PI)) as [H1|H1].
      * rewrite (Hsame H1). lra.
      * auto.
    + exists a. repeat split; lra.
Qed.

(** More fuel does not change the result of a loop that ended. *)
Lemma while_above_more (n : nat) :
  forall a b, while_above n a = Some b -> forall k, while_above (n + k) a = Some b.
Proof.
  induction n as [|n IH]; intros a b H k; [discriminate|].
  simpl in *. destruct (Rgt_dec a PI); auto.
Qed.

Lemma while_below_more (n : nat) :
  forall a b, while_below n a = Some b -> forall k, while_below (n + k) a = Some b.
Proof.
  induction n as [|n IH]; intros a b H k; [discriminate|].
  simpl in *. destruct (Rlt_dec a (- PI)); auto.
Qed.

Lemma normalize_fuel_more (n : nat) (a b : R) :
  normalize_fuel n a = Some b -> forall k, normalize_fuel (n + k) a = Some b.
Proof.
  unfold normalize_fuel. intros H k.
  destruct (while_above n a) as [c|] eqn:Hc; [|discriminate].
  rewrite (while_above_more _ _ _ Hc k). now apply while_below_more.
Qed.

Lemma turns_bound (a : R) : Rabs a <= 2 * PI * INR (Z.to_nat (up (Rabs a / (2 * PI)))).
Proof.
  pose proof PI_gt_3 as HPI.
  set (q := Rabs a / (2 * PI)).
  assert (Hq : 0 <= q).
  { unfold q. apply Rmult_le_pos; [apply Rabs_pos|].
    apply Rlt_le, Rinv_0_lt_compat. lra. }
  destruct (archimed q) as [Hup _].
  assert (Hz : (0 <= up q)%Z).
  { apply le_IZR. lra. }
  rewrite INR_IZR_INZ, Z2Nat.id by exact Hz.
  assert (Ha : Rabs a = q * (2 * PI)).
  { unfold q. field. lra. }
  rewrite Ha. nra.
Qed.

(** The loops end: [turns a] is enough fuel, and the result is in [-π, π]. *)
Lemma normalize_fuel_turns (a : R) :
  exists b, normalize_fuel (turns a) a = Some b /\ - PI <= b <= PI /\
            (- PI <= a <= PI -> b = a) /\ (- PI < a -> - PI < b).
Proof.
  pose proof PI_gt_3 as HPI.
  pose proof (turns_bound a) as Hn.
  unfold turns, normalize_fuel.
  set (n := Z.to_nat (up (Rabs a / (2 * PI)))) in *.
  assert (Habs : - Rabs a <= a <= Rabs a).
  { split; [pose proof (Rle_abs (- a)) as H; rewrite Rabs_Ropp in H; lra
           | apply Rle_abs]. }
  destruct (while_above_enough n a) as (b & Hb & Hble & Hbsame & Hbmore); [lra|].
  rewrite Hb.
  assert (Hlow : - PI - 2 * PI * INR n <= b).
  { destruct (Rle_or_lt a PI) as [H|H]; [rewrite (Hbsame H); lra|].
    specialize (Hbmore H). pose proof (pos_INR n). nra. }
  destruct (while_below_enough n b Hlow) as (c & Hc & Hcge & Hcsame & Hcless).
  exists c. split; [exact Hc|]. split; [|split].
  - split; [exact Hcge|].
    destruct (Rle_or_lt (- PI) b) as [H|H]; [rewrite (Hcsame H); lra|].
    specialize (Hcless H). lra.
  - intros [H1 H2]. rewrite (Hcsame ltac:(rewrite (Hbsame H2); lra)).
    now apply Hbsame.
  - intros H1.
    assert (Hb1 : - PI < b).
    { destruct (Rle_or_lt a PI) as [H|H]; [rewrite (Hbsame H); lra|auto]. }
    rewrite (Hcsame ltac:(lra)). exact Hb1.
Qed.

Lemma normalize_angle_open (a : R) : - PI < a -> - PI < normalize_angle a.
Proof.
  intros Ha. unfold normalize_angle.
  destruct (normalize_fuel_turns a) as (b & Hb & _ & _ & Hopen).
  rewrite Hb. now apply Hopen.
Qed.

Lemma normalize_angle_fuel (a : R) :
  normalize_fuel (turns a) a = Some (normalize_angle a).
Proof.
  unfold normalize_angle.
  destruct (normalize_fuel_turns a) as (b & Hb & _). now rewrite Hb.
Qed.

Lemma normalize_angle_range (a : R) : - PI <= normalize_angle a <= PI.
Proof.
  unfold normalize_angle.
  destruct (normalize_fuel_turns a) as (b & Hb & Hr & _). now rewrite Hb.
Qed.

Lemma normalize_angle_id (a : R) : - PI <= a <= PI -> normalize_angle a = a.
Proof.
  intros Ha. unfold normalize_angle.
  destruct (normalize_fuel_turns a) as (b & Hb & _ & Hsame & _).
  rewrite Hb. now apply Hsame.
Qed.

(** ** The error monad and the loops *)

Lemma checked_div_ok (a b : R) : b <> 0 -> a /? b = Ok (a / b).
Proof.
  intros Hb. unfold checked_div. destruct (Req_dec_T b 0); [contradiction|reflexivity].
Qed.

Lemma checked_div_zero (a : R) : a /? 0 = Err DivByZero.
Proof.
  unfold checked_div. destruct (Req_dec_T 0 0); [reflexivity|congruence].
Qed.

Lemma fold_res_err {S : Type} (f : nat -> S -> res S) (l : list nat) (e : error) :
  fold_left (fun acc i => a <- acc ;; f i a) l (Err e) = Err e.
Proof. induction l as [|i l IH]; simpl; auto. Qed.

(** A loop whose body never fails is the plain loop. *)
Lemma for_res_from_pure {S : Type} (body : nat -> S -> res S) (pure : nat -> S -> S) :
  (forall i a, body i a = Ok (pure i a)) ->
  forall n lo init, for_res_from lo n body init = Ok (for_from lo n pure init).
Proof.
  intros Hb. unfold for_res_from, for_from.
  induction n as [|n IH]; intros lo init; simpl; [reflexivity|].
  rewrite Hb. apply IH.
Qed.

Lemma for_res_pure {S : Type} (body : nat -> S -> res S) (pure : nat -> S -> S) :
  (forall i a, body i a = Ok (pure i a)) ->
  forall n init, for_res n body init = Ok (for_loop n pure init).
Proof. intros Hb n init. apply (for_res_from_pure body pure Hb). Qed.

(** ** Constants *)

Lemma lambda_val : lambda_ = -4.
Proof. reflexivity. Qed.

Lemma n_aug_val : of_int (Z.of_nat n_aug_) = 7.
Proof. reflexivity. Qed.

Lemma spread_val : sqrt (lambda_ + of_int (Z.of_nat n_aug_)) = sqrt 3.
Proof. rewrite lambda_val, n_aug_val. f_equal. lra. Qed.

(** ** The library routines meet their contracts *)

Lemma inverse_2_right (M Mi : Mat) (r c : nat) :
  inverse 2 M = Ok Mi -> (r < 2)%nat -> (c < 2)%nat ->
  mmul 2 M Mi r c = Identity r c.
Proof.
  unfold inverse. destruct (Req_dec_T (det 2 M) 0) as [|Hdet]; [discriminate|].
  intros H Hr Hc. injection H as <-.
  cbv [det sum_n minor skip sign Nat.even Nat.ltb Nat.leb] in Hdet.
  destruct r as [|[|r]]; [| |lia]; (destruct c as [|[|c]]; [| |lia]);
    cbv [mmul sum_n det minor skip sign Nat.even Nat.ltb Nat.leb Nat.add pred
         Identity Nat.eqb];
    (field; intros H0; apply Hdet; lra).
Qed.

Lemma inverse_3_right (M Mi : Mat) (r c : nat) :
  inverse 3 M = Ok Mi -> (r < 3)%nat -> (c < 3)%nat ->
  mmul 3 M Mi r c = Identity r c.
Proof.
  unfold inverse. destruct (Req_dec_T (det 3 M) 0) as [|Hdet]; [discriminate|].
  intros H Hr Hc. injection H as <-.
  cbv [det sum_n minor skip sign Nat.even Nat.ltb Nat.leb] in Hdet.
  destruct r as [|[|[|r]]]; [| | |lia]; (destruct c as [|[|[|c]]]; [| | |lia]);
    cbv [mmul sum_n det minor skip sign Nat.even Nat.ltb Nat.leb Nat.add pred
         Identity Nat.eqb];
    (field; intros H0; apply Hdet; lra).
Qed.

Lemma atan2_range (y x : R) : - PI < atan2 y x <= PI.
Proof.
  pose proof PI_gt_3 as HPI. unfold atan2.
  destruct (Rlt_dec 0 x) as [Hx|Hx].
  - pose proof (atan_bound (y / x)). lra.
  - destruct (Rlt_dec x 0) as [Hx'|Hx'].
    + destruct (Rle_dec 0 y) as [Hy|Hy].
      * assert (Hq : y / x <= 0).
        { unfold Rdiv. assert (/ x < 0) by now apply Rinv_lt_0_compat. nra. }
        pose proof (atan_bound (y / x)).
        assert (atan (y / x) <= 0).
        { rewrite <- atan_0. destruct Hq as [Hq|Hq];
            [left; now apply atan_increasing|right; now rewrite Hq]. }
        lra.
      * assert (Hq : 0 < y / x).
        { unfold Rdiv. assert (/ x < 0) by now apply Rinv_lt_0_compat. nra. }
        pose proof (atan_bound (y / x)).
        assert (0 < atan (y / x)) by (rewrite <- atan_0; now apply atan_increasing).
        lra.
    + destruct (Rlt_dec 0 y); [lra|]. destruct (Rlt_dec y 0); lra.
Qed.

(** ** The steps of the prediction never fail, except for the factorization *)

Lemma predict_column_ok (X : Mat) (i : nat) (delta_t : R) :
  predict_column X i delta_t = Ok (process_model X i delta_t).
Proof.
  unfold predict_column, predict_column_with, process_model.
  destruct (Rgt_dec (Rabs (X 4%nat i)) 0.001) as [Hturn|Hstraight].
  - assert (Hnz : X 4%nat i <> 0).
    { intros H0. rewrite H0, Rabs_R0 in Hturn. lra. }
    rewrite (checked_div_ok _ _ Hnz). reflexivity.
  - reflexivity.
Qed.

Lemma PredictSigmaPoints_ok (s : UKF) (delta_t : R) :
  PredictSigmaPoints s n_aug_ delta_t
  = Ok (set_Xsig_pred (predicted_points (Xsig_aug s) (Xsig_pred_ s) delta_t) s).
Proof.
  unfold PredictSigmaPoints, predicted_points.
  rewrite (for_res_pure _
             (fun i X => write_column X i (process_model (Xsig_aug s) i delta_t))).
  - reflexivity.
  - intros i a. rewrite predict_column_ok. reflexivity.
Qed.

Lemma compute_weights_ok (w : Vec) : compute_weights w = Ok (weights_of w).
Proof.
  unfold compute_weights, weights_of.
  rewrite checked_div_ok by (rewrite lambda_val, n_aug_val; lra).
  cbn [bind].
  apply (for_res_from_pure _
           (fun i w => vset w i (0.5 / (of_int (Z.of_nat n_aug_) + lambda_)))).
  intros i a. rewrite checked_div_ok by (rewrite lambda_val, n_aug_val; lra).
  reflexivity.
Qed.

Lemma PredictMeanAndCovariance_ok (s : UKF) :
  PredictMeanAndCovariance s
  = Ok (let w := weights_of (weights_ s) in
        let x := weighted_mean w (Xsig_pred_ s) in
        set_P_pred (weighted_covariance w (Xsig_pred_ s) x)
                   (set_x_pred x (set_weights w s))).
Proof.
  unfold PredictMeanAndCovariance. rewrite compute_weights_ok. reflexivity.
Qed.

Lemma weights_of_0 (w : Vec) : weights_of w 0%nat = - 4 / 3.
Proof.
  unfold weights_of. cbv [for_from fold_left seq Nat.mul Nat.add n_aug_ vset Nat.eqb].
  rewrite lambda_val. change (of_int (Z.of_nat 7)) with 7. lra.
Qed.

Lemma weights_of_others (w : Vec) (i : nat) :
  (1 <= i < 15)%nat -> weights_of w i = 1 / 6.
Proof.
  intros Hi. unfold weights_of.
  cbv [for_from fold_left seq Nat.mul Nat.add n_aug_ vset].
  rewrite lambda_val. change (of_int (Z.of_nat 7)) with 7.
  do 15 (destruct i as [|i]; [try lia; cbv [Nat.eqb]; lra|]).
  lia.
Qed.

(** ** Coefficients of the intermediate matrices *)

Lemma spread_val_7 : sqrt (lambda_ + of_int (Z.of_nat 7)) = sqrt 3.
Proof. exact spread_val. Qed.

Ltac unroll :=
  cbv [for_loop for_from for_res for_res_from fold_left seq n_aug_ n_x_
       Nat.add Nat.mul Nat.eqb Nat.ltb Nat.leb andb
       set_col set_coef set_head set_topLeftCorner vset col
       vadd vsub vscale madd msub outer transpose
       vec2 vec3 vec5 mat_rows2 mat_rows3 vzero mzero write_column].

Lemma sigma_columns_first (xa : Vec) (L : Mat) (r : nat) :
  sigma_columns xa L (set_col mzero 0 xa) r 0%nat = xa r.
Proof. unfold sigma_columns. unroll. reflexivity. Qed.

Lemma sigma_columns_plus (xa : Vec) (L : Mat) (r i : nat) :
  (i < 7)%nat ->
  sigma_columns xa L (set_col mzero 0 xa) r (i + 1)%nat = xa r + sqrt 3 * L r i.
Proof.
  intros Hi. unfold sigma_columns.
  do 7 (destruct i as [|i]; [unroll; rewrite spread_val_7; reflexivity|]).
  lia.
Qed.

Lemma sigma_columns_minus (xa : Vec) (L : Mat) (r i : nat) :
  (i < 7)%nat ->
  sigma_columns xa L (set_col mzero 0 xa) r (i + 1 + n_aug_)%nat
  = xa r - sqrt 3 * L r i.
Proof.
  intros Hi. unfold sigma_columns.
  do 7 (destruct i as [|i]; [unroll; rewrite spread_val_7; reflexivity|]).
  lia.
Qed.

Lemma predicted_points_at (Xaug Xpred : Mat) (delta_t : R) (r k : nat) :
  (r < 5)%nat -> (k < 15)%nat ->
  predicted_points Xaug Xpred delta_t r k = process_model Xaug k delta_t r.
Proof.
  intros Hr Hk. unfold predicted_points.
  do 5 (destruct r as [|r];
        [do 15 (destruct k as [|k]; [unroll; reflexivity|]); lia|]).
  lia.
Qed.

Lemma weighted_mean_at (w : Vec) (X : Mat) (r : nat) :
  weighted_mean w X r = sum_n 15 (fun k => w k * X r k).
Proof. unfold weighted_mean. unroll. reflexivity. Qed.

(** The residual of column [k], its heading component normalized. *)
Lemma weighted_covariance_at (w : Vec) (X : Mat) (x : Vec) (r c : nat) :
  weighted_covariance w X x r c
  = sum_n 15 (fun k =>
      w k * vset (vsub (col X k) x) 3 (normalize_angle (X 3%nat k - x 3%nat)) r
          * vset (vsub (col X k) x) 3 (normalize_angle (X 3%nat k - x 3%nat)) c).
Proof. unfold weighted_covariance. unroll. reflexivity. Qed.

Lemma augmented_mean_state (s : UKF) (r : nat) :
  (r < 5)%nat -> augmented_mean s r = x_pred_ s r.
Proof.
  intros Hr. unfold augmented_mean.
  do 5 (destruct r as [|r]; [unroll; reflexivity|]). lia.
Qed.

Lemma augmented_mean_noise (s : UKF) (r : nat) :
  (5 <= r)%nat -> augmented_mean s r = 0.
Proof.
  intros Hr. unfold augmented_mean.
  do 5 (destruct r as [|r]; [lia|]).
  destruct r as [|[|r]]; unroll; reflexivity.
Qed.

Lemma augmented_covariance_state (s : UKF) (r c : nat) :
  (r < 5)%nat -> (c < 5)%nat -> augmented_covariance s r c = P_pred_ s r c.
Proof.
  intros Hr Hc. unfold augmented_covariance.
  do 5 (destruct r as [|r];
        [do 5 (destruct c as [|c]; [unroll; reflexivity|]); lia|]).
  lia.
Qed.

Lemma GenerateSigmaPoints_ok (s : UKF) (L : Mat) :
  llt n_aug_ (augmented_covariance s) = Ok L ->
  GenerateSigmaPoints s
  = Ok (set_Xsig_aug
          (sigma_columns (augmented_mean s) L (set_col mzero 0 (augmented_mean s)))
          (set_P_aug (augmented_covariance s) (set_x_aug (augmented_mean s) s))).
Proof. intros HL. unfold GenerateSigmaPoints. rewrite HL. reflexivity. Qed.

(** The state after a prediction whose factorization gave [L]. *)
Lemma Prediction_ok (s : UKF) (delta_t : R) (L : Mat) :
  llt n_aug_ (augmented_covariance s) = Ok L ->
  exists s',
    Prediction s delta_t = Ok s' /\
    Xsig_pred_ s'
    = predicted_points
        (sigma_columns (augmented_mean s) L (set_col mzero 0 (augmented_mean s)))
        (Xsig_pred_ s) delta_t /\
    weights_ s' = weights_of (weights_ s) /\
    x_pred_ s' = weighted_mean (weights_ s') (Xsig_pred_ s') /\
    P_pred_ s' = weighted_covariance (weights_ s') (Xsig_pred_ s') (x_pred_ s') /\
    use_laser_ s' = use_laser_ s /\ use_radar_ s' = use_radar_ s /\
    is_initialized_ s' = is_initialized_ s /\
    previous_timestamp_ s' = previous_timestamp_ s /\
    Xsig_aug s'
    = sigma_columns (augmented_mean s) L (set_col mzero 0 (augmented_mean s)).
Proof.
  intros HL. unfold Prediction.
  rewrite (GenerateSigmaPoints_ok s L HL). cbn [bind].
  rewrite PredictSigmaPoints_ok. cbn [bind].
  rewrite PredictMeanAndCovariance_ok.
  eexists. split; [reflexivity|].
  repeat split;
    cbv beta iota zeta
        delta [set_P_pred set_x_pred set_weights set_Xsig_pred set_Xsig_aug
               set_P_aug set_x_aug Xsig_pred_ weights_ x_pred_ P_pred_ Xsig_aug
               use_laser_ use_radar_ is_initialized_ previous_timestamp_];
    reflexivity.
Qed.

(** ** The predicted mean *)

Lemma process_model_speed (X : Mat) (k : nat) (delta_t : R) :
  process_model X k delta_t 2%nat = X 2%nat k + X 5%nat k * delta_t.
Proof. unfold process_model. destruct (Rgt_dec _ _); reflexivity. Qed.

Lemma process_model_heading (X : Mat) (k : nat) (delta_t : R) :
  process_model X k delta_t 3%nat
  = X 3%nat k + X 4%nat k * delta_t + 0.5 * X 6%nat k * delta_t * delta_t.
Proof. unfold process_model. destruct (Rgt_dec _ _); reflexivity. Qed.

Lemma process_model_rate (X : Mat) (k : nat) (delta_t : R) :
  process_model X k delta_t 4%nat = X 4%nat k + X 6%nat k * delta_t.
Proof. unfold process_model. destruct (Rgt_dec _ _); reflexivity. Qed.

(** With no time elapsed a sigma point is propagated to itself, whatever its
    noise components are. *)
Lemma process_model_still (X : Mat) (k r : nat) :
  (r < 5)%nat -> process_model X k 0 r = X r k.
Proof.
  intros Hr. unfold process_model, turning, straight.
  destruct (Rgt_dec _ _);
    (do 5 (destruct r as [|r];
           [cbv [vec5]; rewrite ?Rmult_0_r, ?Rplus_0_r; unfold Rdiv; ring|]);
     lia).
Qed.

(** All fifteen sigma-point coefficients of row [r] at once. *)
Ltac sigma_plus xa L r i :=
  let H := fresh "Hsig" in
  pose proof (sigma_columns_plus xa L r i ltac:(lia)) as H;
  cbv [Nat.add] in H; rewrite ?H; clear H.

Ltac sigma_minus xa L r i :=
  let H := fresh "Hsig" in
  pose proof (sigma_columns_minus xa L r i ltac:(lia)) as H;
  cbv [Nat.add n_aug_] in H; rewrite ?H; clear H.

Ltac sigma_row xa L r :=
  rewrite ?(sigma_columns_first xa L r);
  sigma_plus xa L r constr:(0%nat); sigma_plus xa L r constr:(1%nat);
  sigma_plus xa L r constr:(2%nat); sigma_plus xa L r constr:(3%nat);
  sigma_plus xa L r constr:(4%nat); sigma_plus xa L r constr:(5%nat);
  sigma_plus xa L r constr:(6%nat);
  sigma_minus xa L r constr:(0%nat); sigma_minus xa L r constr:(1%nat);
  sigma_minus xa L r constr:(2%nat); sigma_minus xa L r constr:(3%nat);
  sigma_minus xa L r constr:(4%nat); sigma_minus xa L r constr:(5%nat);
  sigma_minus xa L r constr:(6%nat).

Ltac weights_row w :=
  rewrite ?(weights_of_0 w),
          ?(weights_of_others w 1 ltac:(lia)), ?(weights_of_others w 2 ltac:(lia)),
          ?(weights_of_others w 3 ltac:(lia)), ?(weights_of_others w 4 ltac:(lia)),
          ?(weights_of_others w 5 ltac:(lia)), ?(weights_of_others w 6 ltac:(lia)),
          ?(weights_of_others w 7 ltac:(lia)), ?(weights_of_others w 8 ltac:(lia)),
          ?(weights_of_others w 9 ltac:(lia)), ?(weights_of_others w 10 ltac:(lia)),
          ?(weights_of_others w 11 ltac:(lia)), ?(weights_of_others w 12 ltac:(lia)),
          ?(weights_of_others w 13 ltac:(lia)), ?(weights_of_others w 14 ltac:(lia)).

(** The weighted mean of the sigma points is the mean they were drawn around. *)
Lemma sigma_mean (w : Vec) (xa : Vec) (L : Mat) (r : nat) :
  sum_n 15 (fun k => weights_of w k
                     * sigma_columns xa L (set_col mzero 0 xa) r k)
  = xa r.
Proof.
  cbv [sum_n]. weights_row w. sigma_row xa L r. field.
Qed.

(** The sums the process model is linear in. *)
Lemma sum_n_plus (n : nat) (f g : nat -> R) :
  sum_n n (fun k => f k + g k) = sum_n n f + sum_n n g.
Proof. induction n as [|n IH]; simpl; [lra|rewrite IH; lra]. Qed.

Lemma sum_n_scale (n : nat) (f : nat -> R) (a : R) :
  sum_n n (fun k => f k * a) = sum_n n f * a.
Proof. induction n as [|n IH]; simpl; [lra|rewrite IH; lra]. Qed.

Lemma sum_n_ext (n : nat) (f g : nat -> R) :
  (forall k, (k < n)%nat -> f k = g k) -> sum_n n f = sum_n n g.
Proof.
  induction n as [|n IH]; intros H; simpl; [reflexivity|].
  rewrite IH by (intros k Hk; apply H; lia). rewrite H by lia. reflexivity.
Qed.

Lemma prediction_heading (s s' : UKF) (delta_t : R) (L : Mat) :
  llt n_aug_ (augmented_covariance s) = Ok L ->
  Prediction s delta_t = Ok s' ->
  x_pred_ s' 3%nat = x_pred_ s 3%nat + x_pred_ s 4%nat * delta_t.
Proof.
  intros HL Hs'.
  destruct (Prediction_ok s delta_t L HL) as (t & Ht & HX & HW & Hx & _).
  rewrite Ht in Hs'. injection Hs' as <-.
  rewrite Hx, weighted_mean_at, HW, HX.
  set (xa := augmented_mean s).
  set (Xa := sigma_columns xa L (set_col mzero 0 xa)).
  rewrite (sum_n_ext 15 _
             (fun k => weights_of (weights_ s) k * Xa 3%nat k
                       + weights_of (weights_ s) k * Xa 4%nat k * delta_t
                       + weights_of (weights_ s) k * Xa 6%nat k
                         * (0.5 * delta_t * delta_t))).
  - rewrite !sum_n_plus, !sum_n_scale. unfold Xa.
    rewrite !sigma_mean. unfold xa.
    rewrite !augmented_mean_state by lia.
    rewrite augmented_mean_noise by lia. lra.
  - intros k Hk. rewrite predicted_points_at by lia.
    rewrite process_model_heading. lra.
Qed.

Lemma prediction_still (s s' : UKF) (L : Mat) (r : nat) :
  llt n_aug_ (augmented_covariance s) = Ok L ->
  Prediction s 0 = Ok s' ->
  (r < 5)%nat ->
  x_pred_ s' r = x_pred_ s r.
Proof.
  intros HL Hs' Hr.
  destruct (Prediction_ok s 0 L HL) as (t & Ht & HX & HW & Hx & _).
  rewrite Ht in Hs'. injection Hs' as <-.
  rewrite Hx, weighted_mean_at, HW, HX.
  rewrite (sum_n_ext 15 _
             (fun k => weights_of (weights_ s) k
                       * sigma_columns (augmented_mean s) L
                           (set_col mzero 0 (augmented_mean s)) r k)).
  - rewrite sigma_mean. now apply augmented_mean_state.
  - intros k Hk. rewrite predicted_points_at by lia.
    now rewrite process_model_still.
Qed.

(** ** The run: the first call and the factorization *)

Lemma run_first_call (b : bool) :
  ProcessMeasurement (set_use_laser b (UKF_new run_mem)) run_first = Ok (run_s1 b).
Proof. reflexivity. Qed.

Lemma llt_column_eq (A : Mat) (j : nat) (L L' : Mat) (d : R) :
  0 < d ->
  A j j - sum_n j (fun k => L j k * L j k) = d * d ->
  (forall r c,
      L' r c = if Nat.eqb c j then
                 if Nat.eqb r j then d
                 else if Nat.ltb j r
                      then (A r j - sum_n j (fun k => L r k * L j k)) / d
                      else L r c
               else L r c) ->
  llt_column A j L = Ok L'.
Proof.
  intros Hd Hx HL'. unfold llt_column. rewrite Hx.
  destruct (Rle_dec (d * d) 0) as [Hneg|_]; [nra|].
  rewrite sqrt_square by lra. cbv zeta.
  apply f_equal. extensionality r. extensionality c. now rewrite HL'.
Qed.

Ltac run_cases r c :=
  destruct r as [|[|[|[|[|[|[|r]]]]]]];
  destruct c as [|[|[|[|[|[|[|c]]]]]]].

Ltac run_eval :=
  cbv [run_L_upto run_L run_P augmented_covariance run_s1 P_pred_ sum_n
       std_a_ std_yawdd_ set_coef set_topLeftCorner mzero
       Nat.eqb Nat.ltb Nat.leb andb].

Lemma run_column (j : nat) (b : bool) :
  (j < 7)%nat ->
  llt_column (augmented_covariance (run_s1 b)) j (run_L_upto j)
  = Ok (run_L_upto (S j)).
Proof.
  intros Hj.
  apply (llt_column_eq _ _ _ _ (run_L j j)).
  - do 7 (destruct j as [|j]; [cbv [run_L]; lra|]). lia.
  - do 7 (destruct j as [|j]; [run_eval; lra|]). lia.
  - intros r c.
    do 7 (destruct j as [|j];
          [run_cases r c; run_eval; unfold Rdiv; try lra; try ring|]).
    lia.
Qed.

Lemma run_L_all : run_L_upto 7 = run_L.
Proof.
  extensionality r. extensionality c.
  run_cases r c; cbv [run_L_upto run_L Nat.ltb Nat.leb]; reflexivity.
Qed.

Lemma run_llt (b : bool) : llt n_aug_ (augmented_covariance (run_s1 b)) = Ok run_L.
Proof.
  unfold llt, for_res, for_res_from. cbv [n_aug_ seq fold_left].
  change mzero with (run_L_upto 0).
  cbn [bind]. rewrite run_column by lia.
  cbn [bind]. rewrite run_column by lia.
  cbn [bind]. rewrite run_column by lia.
  cbn [bind]. rewrite run_column by lia.
  cbn [bind]. rewrite run_column by lia.
  cbn [bind]. rewrite run_column by lia.
  cbn [bind]. rewrite run_column by lia.
  now rewrite run_L_all.
Qed.

(** [run_L] is a Cholesky factor indeed: lower triangular, positive on the
    diagonal, and [run_L * run_L^T] is the augmented covariance. *)
Lemma run_L_factor (b : bool) (r c : nat) :
  (r < 7)%nat -> (c < 7)%nat ->
  mmul 7 run_L (transpose run_L) r c = augmented_covariance (run_s1 b) r c /\
  ((r < c)%nat -> run_L r c = 0) /\ 0 < run_L r r.
Proof.
  intros Hr Hc.
  run_cases r c; try lia;
    (split; [cbv [mmul transpose]; run_eval; lra|]);
    (split; [intros Hlt; try lia; reflexivity|cbv [run_L]; lra]).
Qed.

(** ** The run: the prediction of the second call *)

Lemma sqrt3_bounds : 1 < sqrt 3 < 2.
Proof.
  split.
  - rewrite <- sqrt_1 at 1. apply sqrt_lt_1_alt. lra.
  - replace 2 with (sqrt (2 * 2)) by (apply sqrt_square; lra).
    apply sqrt_lt_1_alt. lra.
Qed.

Lemma sqrt3_sqr : sqrt 3 * sqrt 3 = 3.
Proof. apply sqrt_sqrt. lra. Qed.

Lemma run_sigma_at (b : bool) (r k : nat) :
  (r < 7)%nat -> (k < 15)%nat ->
  sigma_columns (augmented_mean (run_s1 b)) run_L
    (set_col mzero 0 (augmented_mean (run_s1 b))) r k
  = run_Xaug r k.
Proof.
  intros Hr Hk.
  set (xa := augmented_mean (run_s1 b)).
  assert (Hxa : forall i, xa i = 0).
  { intros i. unfold xa, augmented_mean.
    destruct i as [|[|[|[|[|[|[|i]]]]]]]; reflexivity. }
  do 15 (destruct k as [|k];
         [sigma_row xa run_L r; rewrite ?Hxa;
          do 7 (destruct r as [|r]; [cbv [run_Xaug run_L vec7 vzero]; lra|]); lia|]).
  lia.
Qed.

Ltac branch_absurd H :=
  exfalso; revert H; rewrite ?Rabs_R0; unfold Rabs;
  try match goal with |- context [Rcase_abs ?x] => destruct (Rcase_abs x) end;
  pose proof sqrt3_bounds; intros; lra.

Lemma run_predicted (b : bool) (r k : nat) :
  (r < 5)%nat -> (k < 15)%nat ->
  process_model
    (sigma_columns (augmented_mean (run_s1 b)) run_L
       (set_col mzero 0 (augmented_mean (run_s1 b)))) k 1 r
  = run_Xpred r k.
Proof.
  intros Hr Hk.
  set (Xa := sigma_columns _ _ _).
  assert (HX : forall i j, (i < 7)%nat -> (j < 15)%nat -> Xa i j = run_Xaug i j)
    by (intros; now apply run_sigma_at).
  unfold process_model, turning, straight.
  do 15 (destruct k as [|k];
         [rewrite !HX by lia; cbv [run_Xaug vec7 vzero];
          destruct (Rgt_dec _ _) as [Hb|Hb];
          try (branch_absurd Hb);
          (do 5 (destruct r as [|r];
                 [cbv [run_Xpred vec5 vzero]; rewrite ?cos_0, ?sin_0;
                  unfold Rdiv; first [lra | ring]|]); lia)|]).
  lia.
Qed.

Lemma run_prediction (b : bool) :
  exists s2,
    Prediction (run_s1 b) 1 = Ok s2 /\
    use_laser_ s2 = b /\
    (x_pred_ s2 0%nat = 0 /\ x_pred_ s2 1%nat = 0 /\ x_pred_ s2 3%nat = 0) /\
    (P_pred_ s2 0%nat 0%nat = 5.61 /\ P_pred_ s2 0%nat 1%nat = 0 /\
     P_pred_ s2 1%nat 0%nat = 0 /\ P_pred_ s2 1%nat 1%nat = 1 /\
     P_pred_ s2 3%nat 0%nat = 1 /\ P_pred_ s2 3%nat 1%nat = 0) /\
    (forall r k, (r < 5)%nat -> (k < 15)%nat -> Xsig_pred_ s2 r k = run_Xpred r k).
Proof.
  destruct (Prediction_ok (run_s1 b) 1 run_L (run_llt b))
    as (s2 & Hs2 & HX & HW & Hx & HP & Hlaser & _).
  exists s2. split; [exact Hs2|]. split; [exact Hlaser|].
  assert (HXat : forall r k, (r < 5)%nat -> (k < 15)%nat ->
                             Xsig_pred_ s2 r k = run_Xpred r k).
  { intros r k Hr Hk. rewrite HX, predicted_points_at by lia.
    now apply run_predicted. }
  assert (Hmean : forall r, (r < 5)%nat ->
            x_pred_ s2 r = sum_n 15 (fun k => weights_of (weights_ (run_s1 b)) k
                                               * run_Xpred r k)).
  { intros r Hr. rewrite Hx, weighted_mean_at, HW.
    apply sum_n_ext. intros k Hk. now rewrite HXat by lia. }
  assert (Hx0 : x_pred_ s2 0%nat = 0).
  { rewrite Hmean by lia. cbv [sum_n]. weights_row (weights_ (run_s1 b)).
    cbv [run_Xpred vec5 vzero]. lra. }
  assert (Hx1 : x_pred_ s2 1%nat = 0).
  { rewrite Hmean by lia. cbv [sum_n]. weights_row (weights_ (run_s1 b)).
    cbv [run_Xpred vec5 vzero]. lra. }
  assert (Hx3 : x_pred_ s2 3%nat = 0).
  { rewrite Hmean by lia. cbv [sum_n]. weights_row (weights_ (run_s1 b)).
    cbv [run_Xpred vec5 vzero]. lra. }
  split; [now repeat split|].
  split; [|exact HXat].
  pose proof sqrt3_bounds as Hs. pose proof sqrt3_sqr as Hss.
  pose proof PI_gt_3 as HPI.
  rewrite HP.
  repeat split;
    (rewrite weighted_covariance_at; cbv [sum_n vset vsub col Nat.eqb];
     rewrite HW; weights_row (weights_ (run_s1 b));
     rewrite !HXat by lia; rewrite ?Hx0, ?Hx1, ?Hx3;
     cbv [run_Xpred vec5 vzero];
     rewrite ?normalize_angle_id by lra;
     nra).
Qed.

(** ** The lidar update *)

Ltac linalg :=
  cbv [det inverse sum_n minor skip sign Nat.even pred
       mmul mvmul madd msub vadd vsub vscale outer transpose Identity
       mat_rows2 mat_rows3 vec2 vec3 vec5 vzero mzero
       Nat.add Nat.eqb Nat.ltb Nat.leb].

Lemma UpdateLidar_heading (s : UKF) (m : MeasurementPackage) :
  lidar_det (P_pred_ s) <> 0 ->
  exists s',
    UpdateLidar s m = Ok s' /\
    use_laser_ s' = use_laser_ s /\
    x_pred_ s' 3%nat
    = x_pred_ s 3%nat
      + (P_pred_ s 3%nat 0%nat
         * ((P_pred_ s 1%nat 1%nat + 0.0225)
              * (raw_measurements_ m 0%nat - x_pred_ s 0%nat)
            - P_pred_ s 0%nat 1%nat
              * (raw_measurements_ m 1%nat - x_pred_ s 1%nat))
         + P_pred_ s 3%nat 1%nat
           * ((P_pred_ s 0%nat 0%nat + 0.0225)
                * (raw_measurements_ m 1%nat - x_pred_ s 1%nat)
              - P_pred_ s 1%nat 0%nat
                * (raw_measurements_ m 0%nat - x_pred_ s 0%nat)))
        / lidar_det (P_pred_ s).
Proof.
  intros Hdet. unfold UpdateLidar. cbv zeta.
  set (H_ := mat_rows2 _ _). set (R_ := mat_rows2 _ _).
  set (S := madd _ R_).
  assert (HS : det 2 S = lidar_det (P_pred_ s)).
  { unfold S, H_, R_, lidar_det. linalg. ring. }
  unfold inverse. rewrite HS.
  destruct (Req_dec_T (lidar_det (P_pred_ s)) 0) as [H0|_]; [contradiction|].
  cbn [bind]. eexists. split; [reflexivity|]. split; [reflexivity|].
  cbv beta iota zeta delta [set_P_pred set_x_pred x_pred_].
  unfold S, H_, R_. linalg. fold (x_pred_ s). fold (P_pred_ s).
  unfold lidar_det in *. field. exact Hdet.
Qed.

(** ** The run: the second call *)

Lemma run_second_call (b : bool) :
  exists s3,
    ProcessMeasurement (run_s1 b) run_second = Ok s3 /\
    use_laser_ s3 = b /\
    x_pred_ s3 3%nat = 100 / 5.6325.
Proof.
  destruct (run_prediction b)
    as (s2 & Hs2 & Hl & (Hx0 & Hx1 & Hx3) & (P00 & P01 & P10 & P11 & P30 & P31)
        & _).
  assert (Hdet : lidar_det (P_pred_ s2) <> 0).
  { unfold lidar_det. rewrite P00, P01, P10, P11. lra. }
  destruct (UpdateLidar_heading s2 run_second Hdet) as (s3 & Hs3 & Hl3 & Hh).
  exists (set_previous_timestamp (timestamp_ run_second) s3). split; [|split].
  - unfold ProcessMeasurement.
    change (is_initialized_ (run_s1 b)) with true. cbn [negb].
    replace (IZR (timestamp_ run_second - previous_timestamp_ (run_s1 b))
             / 1000000.0) with 1
      by (change (timestamp_ run_second - previous_timestamp_ (run_s1 b))%Z
            with 1000000%Z; lra).
    rewrite Hs2. cbn [bind].
    change (sensor_type_ run_second) with LASER. cbv iota.
    rewrite Hs3. reflexivity.
  - change (use_laser_ (set_previous_timestamp (timestamp_ run_second) s3))
      with (use_laser_ s3). congruence.
  - change (x_pred_ (set_previous_timestamp (timestamp_ run_second) s3))
      with (x_pred_ s3).
    rewrite Hh. unfold lidar_det. rewrite P00, P01, P10, P11, P30, P31, Hx0, Hx1, Hx3.
    change (raw_measurements_ run_second 0%nat) with 100.
    change (raw_measurements_ run_second 1%nat) with 0.
    lra.
Qed.

(** ** The factor is lower triangular *)

Lemma llt_column_lower (A : Mat) (j : nat) (L L' : Mat) :
  llt_column A j L = Ok L' -> lower_upto j L -> lower_upto (S j) L'.
Proof.
  unfold llt_column. destruct (Rle_dec _ 0) as [|_]; [discriminate|].
  intros H Hlow. injection H as <-. intros r c Hrc. cbv beta.
  destruct (Nat.eqb_spec c j) as [->|Hne].
  - assert (Hr : (r < j)%nat) by lia.
    destruct (Nat.eqb_spec r j) as [|_]; [lia|].
    destruct (Nat.ltb_spec j r) as [|_]; [lia|].
    apply Hlow. lia.
  - apply Hlow. lia.
Qed.

Lemma llt_fold_lower (A : Mat) (n : nat) :
  forall lo L0 L,
    lower_upto lo L0 ->
    fold_left (fun acc i => a <- acc ;; llt_column A i a) (seq lo n) (Ok L0) = Ok L ->
    lower_upto (lo + n) L.
Proof.
  induction n as [|n IH]; intros lo L0 L Hlow H; simpl in H.
  - injection H as <-. now rewrite Nat.add_0_r.
  - destruct (llt_column A lo L0) as [L1|e] eqn:Hcol.
    + replace (lo + S n)%nat with (S lo + n)%nat by lia.
      apply (IH (S lo) L1 L); [|exact H].
      now apply (llt_column_lower A lo L0).
    + rewrite fold_res_err in H. discriminate.
Qed.

Lemma llt_lower (n : nat) (A L : Mat) (r c : nat) :
  llt n A = Ok L -> (r < c)%nat -> L r c = 0.
Proof.
  intros H Hrc.
  apply (llt_fold_lower A n 0 mzero L); [intros r' c' _; reflexivity|exact H|lia].
Qed.

(** ** The factor is a Cholesky factor *)

Lemma sum_n_tail_zero (f : nat -> R) (m : nat) :
  forall n, (m <= n)%nat -> (forall k, (m <= k < n)%nat -> f k = 0) ->
            sum_n n f = sum_n m f.
Proof.
  induction n as [|n IH]; intros Hmn Hz.
  - now replace m with 0%nat by lia.
  - destruct (Nat.eq_dec m (S n)) as [->|Hne]; [reflexivity|].
    simpl. rewrite IH by (try lia; intros k Hk; apply Hz; lia).
    rewrite (Hz n) by lia. lra.
Qed.

Lemma llt_column_chol (A : Mat) (j : nat) (L L' : Mat) :
  llt_column A j L = Ok L' -> chol_upto A j L -> chol_upto A (S j) L'.
Proof.
  intros Hcol [Hlow [Hdiag Hprod]].
  split; [now apply (llt_column_lower A j L)|].
  unfold llt_column in Hcol.
  set (x := A j j - sum_n j (fun k => L j k * L j k)) in *.
  destruct (Rle_dec x 0) as [|Hx]; [discriminate|].
  injection Hcol as <-.
  assert (Hd : 0 < sqrt x) by (apply sqrt_lt_R0; lra).
  assert (Hdd : sqrt x * sqrt x = x) by (apply sqrt_sqrt; lra).
  split.
  - intros c Hc. cbv beta.
    destruct (Nat.eqb_spec c j) as [->|Hne].
    + exact Hd.
    + apply Hdiag. lia.
  - intros c r Hc Hcr.
    destruct (Nat.eq_dec c j) as [->|Hne].
    + cbn [sum_n].
      rewrite (sum_n_ext j _ (fun k => L r k * L j k)).
      2:{ intros k Hk. cbv beta.
          destruct (Nat.eqb_spec k j) as [|_]; [lia|reflexivity]. }
      cbv beta. rewrite Nat.eqb_refl.
      destruct (Nat.eqb_spec r j) as [->|Hrj].
      * fold x. unfold x in Hdd |- *. rewrite Hdd. lra.
      * destruct (Nat.ltb_spec j r) as [_|]; [|lia]. field. lra.
    + rewrite (sum_n_ext (S c) _ (fun k => L r k * L c k)).
      * apply Hprod; lia.
      * intros k Hk. cbv beta.
        destruct (Nat.eqb_spec k j) as [|_]; [lia|reflexivity].
Qed.

Lemma llt_fold_chol (A : Mat) (n : nat) :
  forall lo L0 L,
    chol_upto A lo L0 ->
    fold_left (fun acc i => a <- acc ;; llt_column A i a) (seq lo n) (Ok L0) = Ok L ->
    chol_upto A (lo + n) L.
Proof.
  induction n as [|n IH]; intros lo L0 L Hinv H; simpl in H.
  - injection H as <-. now rewrite Nat.add_0_r.
  - destruct (llt_column A lo L0) as [L1|e] eqn:Hcol.
    + replace (lo + S n)%nat with (S lo + n)%nat by lia.
      apply (IH (S lo) L1 L); [|exact H].
      now apply (llt_column_chol A lo L0).
    + rewrite fold_res_err in H. discriminate.
Qed.

(** The factor of a symmetric matrix: lower triangular, positive on the
    diagonal, and [L * L^T] gives the matrix back. *)
Lemma llt_factor (n : nat) (A L : Mat) (r c : nat) :
  llt n A = Ok L ->
  (forall i j, A i j = A j i) ->
  (r < n)%nat -> (c < n)%nat ->
  mmul n L (transpose L) r c = A r c /\
  ((r < c)%nat -> L r c = 0) /\ 0 < L r r.
Proof.
  intros HL Hsym Hr Hc.
  destruct (llt_fold_chol A n 0 mzero L) as [Hlow [Hdiag Hprod]];
    [split; [intros r' c' _; reflexivity|split; intros; lia]|exact HL|].
  cbn [Nat.add] in *.
  split; [|split; [intros Hrc; apply Hlow; lia|now apply Hdiag]].
  unfold mmul, transpose.
  assert (Hhalf : forall a b, (b <= a)%nat -> (a < n)%nat ->
                    sum_n n (fun k => L a k * L b k) = A a b).
  { intros a b Hba Ha.
    rewrite (sum_n_tail_zero _ (S b)); [apply Hprod; lia|lia|].
    intros k Hk. rewrite (Hlow b k) by lia. lra. }
  destruct (Nat.le_gt_cases c r) as [Hcr|Hrc].
  - now apply Hhalf.
  - rewrite (sum_n_ext n _ (fun k => L c k * L r k)) by (intros; lra).
    rewrite Hhalf by lia. apply Hsym.
Qed.

(** ** A loop that meets a division by zero *)

Lemma fold_div_by_zero {S : Type} (body : nat -> S -> res S) (i : nat) :
  (forall k a, body k a = Err DivByZero \/ exists a', body k a = Ok a') ->
  (forall a, body i a = Err DivByZero) ->
  forall l acc,
    In i l ->
    (acc = Err DivByZero \/ exists a, acc = Ok a) ->
    fold_left (fun acc k => a <- acc ;; body k a) l acc = Err DivByZero.
Proof.
  intros Hany Hi. induction l as [|k l IH]; intros acc Hin Hacc; [contradiction|].
  simpl. destruct Hin as [->|Hin].
  - destruct Hacc as [->|[a ->]]; cbn [bind]; [|rewrite Hi]; apply fold_res_err.
  - apply IH; [exact Hin|].
    destruct Hacc as [->|[a ->]]; cbn [bind]; [now left|apply Hany].
Qed.

Lemma radar_column_at_origin (X : Mat) (i : nat) :
  X 0%nat i = 0 -> X 1%nat i = 0 -> radar_column X i = Err DivByZero.
Proof.
  intros Hx Hy. unfold radar_column. rewrite Hx, Hy.
  replace (0 * 0 + 0 * 0) with 0 by lra. rewrite sqrt_0.
  now rewrite checked_div_zero.
Qed.

Lemma radar_column_cases (X : Mat) (k : nat) :
  radar_column X k = Err DivByZero \/ exists v, radar_column X k = Ok v.
Proof.
  unfold radar_column, checked_div.
  destruct (Req_dec_T _ 0); cbn [bind]; [now left|right; eexists; reflexivity].
Qed.

Lemma radar_sigma_points_at_origin (X : Mat) (i : nat) :
  (i < 15)%nat -> X 0%nat i = 0 -> X 1%nat i = 0 ->
  radar_sigma_points X = Err DivByZero.
Proof.
  intros Hi Hx Hy. unfold radar_sigma_points, for_res, for_res_from.
  apply (fold_div_by_zero _ i).
  - intros k a. destruct (radar_column_cases X k) as [->|[v ->]]; cbn [bind];
      [now left|right; eexists; reflexivity].
  - intros a. now rewrite radar_column_at_origin.
  - apply in_seq. unfold n_aug_. lia.
  - right. eexists. reflexivity.
Qed.

(** ** The run: a radar measurement as the second call

    The first measurement put the mean at the origin, so does the prediction,
    and sigma point 0 of the radar update has range 0. *)

Lemma run_radar_call (b : bool) :
  ProcessMeasurement (run_s1 b) run_radar = Err DivByZero.
Proof.
  destruct (run_prediction b) as (s2 & Hs2 & _ & _ & _ & HX).
  unfold ProcessMeasurement.
  change (is_initialized_ (run_s1 b)) with true. cbn [negb].
  replace (IZR (timestamp_ run_radar - previous_timestamp_ (run_s1 b))
           / 1000000.0) with 1
    by (change (timestamp_ run_radar - previous_timestamp_ (run_s1 b))%Z
          with 1000000%Z; lra).
  rewrite Hs2. cbn [bind].
  change (sensor_type_ run_radar) with RADAR. cbv iota.
  unfold UpdateRadar.
  rewrite (radar_sigma_points_at_origin (Xsig_pred_ s2) 0);
    [reflexivity|lia|rewrite HX by lia; reflexivity|rewrite HX by lia; reflexivity].
Qed.

(** ** A singular innovation covariance *)

Lemma UpdateLidar_singular (s : UKF) (m : MeasurementPackage) :
  lidar_det (P_pred_ s) = 0 -> UpdateLidar s m = Err Singular.
Proof.
  intros Hdet. unfold UpdateLidar. cbv zeta.
  set (H_ := mat_rows2 _ _). set (R_ := mat_rows2 _ _).
  set (S := madd _ R_).
  assert (HS : det 2 S = lidar_det (P_pred_ s)).
  { unfold S, H_, R_, lidar_det. linalg. ring. }
  unfold inverse. rewrite HS.
  destruct (Req_dec_T (lidar_det (P_pred_ s)) 0) as [_|H0]; [reflexivity|].
  contradiction.
Qed.

(** ** The first call *)

Lemma first_call_ok (s : UKF) (m : MeasurementPackage) :
  is_initialized_ s = false ->
  exists s',
    ProcessMeasurement s m = Ok s' /\
    x_pred_ s' 3%nat = 0 /\
    is_initialized_ s' = true /\
    P_pred_ s' = P_pred_ s /\
    (Xsig_pred_ s' = Xsig_pred_ s /\ weights_ s' = weights_ s /\
     Xsig_aug s' = Xsig_aug s /\ x_aug s' = x_aug s /\ P_aug s' = P_aug s).
Proof.
  intros Hinit. unfold ProcessMeasurement. rewrite Hinit. cbn [negb].
  eexists. split; [reflexivity|].
  destruct (sensor_type_ m); repeat split; reflexivity.
Qed.

(** ** A factorization that fails at the first pivot *)

Lemma llt_fails_first (A : Mat) (n : nat) :
  A 0%nat 0%nat <= 0 -> llt (S n) A = Err NumericalIssue.
Proof.
  intros HA. unfold llt, for_res, for_res_from.
  cbn [seq fold_left bind]. unfold llt_column at 2. cbv [sum_n].
  destruct (Rle_dec (A 0%nat 0%nat - 0) 0) as [_|H]; [|lra].
  apply fold_res_err.
Qed.

(** ** The toggles are never read *)

Ltac members :=
  cbv beta iota zeta
      delta [set_use_laser set_use_radar set_is_initialized set_x_pred set_P_pred
             set_Xsig_pred set_weights set_Xsig_aug set_x_aug set_P_aug
             set_previous_timestamp
             use_laser_ use_radar_ is_initialized_ x_pred_ P_pred_ Xsig_pred_
             weights_ Xsig_aug x_aug P_aug previous_timestamp_
             augmented_mean augmented_covariance].

Lemma ProcessMeasurement_toggles (bl br : bool) (s : UKF) (m : MeasurementPackage) :
  ProcessMeasurement (set_use_radar br (set_use_laser bl s)) m
  = res_map (fun s' => set_use_radar br (set_use_laser bl s'))
            (ProcessMeasurement s m).
Proof.
  destruct s as [ul ur init x P Xp w Xa xa Pa t].
  unfold ProcessMeasurement. members.
  destruct init; cbn [negb].
  - unfold Prediction, GenerateSigmaPoints. members.
    destruct (llt n_aug_ _) as [L|e]; cbn [bind res_map]; [|reflexivity].
    rewrite !PredictSigmaPoints_ok. cbn [bind].
    rewrite !PredictMeanAndCovariance_ok. cbn [bind]. members.
    destruct (sensor_type_ m).
    + unfold UpdateLidar. members.
      destruct (inverse 2 _) as [Si|e]; cbn [bind res_map]; reflexivity.
    + unfold UpdateRadar. members.
      destruct (radar_sigma_points _) as [Zsig|e]; cbn [bind res_map];
        [|reflexivity].
      destruct (inverse 3 _) as [Si|e]; cbn [bind res_map]; reflexivity.
  - destruct (sensor_type_ m); reflexivity.
Qed.

(** * The claims *)

(** C1, the code at a failing input.  [ProcessMeasurement] never reads
    [use_laser_] or [use_radar_]: its result is the same whatever they hold.
    With [use_laser_] set to false after construction, the second lidar
    measurement of the run still goes through prediction and update, and moves
    the heading from 0 to 100/5.6325. *)
Theorem lidar_toggle_not_consulted :
  (forall bl br s m,
      ProcessMeasurement (set_use_radar br (set_use_laser bl s)) m
      = res_map (fun s' => set_use_radar br (set_use_laser bl s'))
                (ProcessMeasurement s m)) /\
  ProcessMeasurement (set_use_laser false (UKF_new run_mem)) run_first
  = Ok (run_s1 false) /\
  use_laser_ (run_s1 false) = false /\
  is_initialized_ (run_s1 false) = true /\
  sensor_type_ run_second = LASER /\
  exists s2,
    ProcessMeasurement (run_s1 false) run_second = Ok s2 /\
    use_laser_ s2 = false /\
    x_pred_ (run_s1 false) 3%nat = 0 /\
    x_pred_ s2 3%nat = 100 / 5.6325 /\
    x_pred_ s2 3%nat <> x_pred_ (run_s1 false) 3%nat.
Proof.
  split; [exact ProcessMeasurement_toggles|].
  split; [exact (run_first_call false)|].
  split; [reflexivity|]. split; [reflexivity|]. split; [reflexivity|].
  destruct (run_second_call false) as (s3 & H & Hl & Hh).
  exists s3. split; [exact H|]. split; [exact Hl|]. split; [reflexivity|].
  split; [exact Hh|]. rewrite Hh. change (x_pred_ (run_s1 false) 3%nat) with 0.
  lra.
Qed.

(** C2 (as the code has it).  [ProcessMeasurement] does not wrap the heading
    x(3).  The initialization call sets it to 0, which is inside (-π, π]; every
    later call first sets it to x(3) + x(4)·Δt in the prediction and, for a
    lidar measurement, then adds row 3 of the gain times the innovation; no
    step brings the sum back into the interval. *)
Theorem heading_after_call (s s' : UKF) (m : MeasurementPackage) :
  ProcessMeasurement s m = Ok s' ->
  (is_initialized_ s = false ->
   x_pred_ s' 3%nat = 0 /\ - PI < x_pred_ s' 3%nat <= PI) /\
  (is_initialized_ s = true ->
   exists s1,
     Prediction s (elapsed s m) = Ok s1 /\
     x_pred_ s1 3%nat = x_pred_ s 3%nat + x_pred_ s 4%nat * elapsed s m /\
     (sensor_type_ m = LASER ->
      x_pred_ s' 3%nat = x_pred_ s1 3%nat + lidar_heading_correction s1 m)).
Proof.
  intros H. split.
  - intros Hinit.
    destruct (first_call_ok s m Hinit) as (t & Ht & H3 & _).
    rewrite Ht in H. injection H as <-. rewrite H3.
    pose proof PI_gt_3. lra.
  - intros Hinit. unfold ProcessMeasurement in H. rewrite Hinit in H.
    cbn [negb] in H. fold (elapsed s m) in H.
    destruct (Prediction s (elapsed s m)) as [s1|e] eqn:HP; [|discriminate].
    cbn [bind] in H. exists s1. split; [reflexivity|]. split.
    + destruct (llt n_aug_ (augmented_covariance s)) as [L|e] eqn:HL.
      * exact (prediction_heading s s1 (elapsed s m) L HL HP).
      * unfold Prediction, GenerateSigmaPoints in HP. rewrite HL in HP.
        discriminate.
    + intros Hlaser. rewrite Hlaser in H.
      destruct (UpdateLidar s1 m) as [s2|e] eqn:HU; [|discriminate].
      cbn [bind] in H. injection H as <-.
      change (x_pred_ (set_previous_timestamp (timestamp_ m) s2)) with (x_pred_ s2).
      destruct (Req_dec_T (lidar_det (P_pred_ s1)) 0) as [H0|Hdet].
      * rewrite (UpdateLidar_singular s1 m H0) in HU. discriminate.
      * destruct (UpdateLidar_heading s1 m Hdet) as (t & Ht & _ & Hh).
        rewrite Ht in HU. injection HU as <-. exact Hh.
Qed.

Lemma heading_after_call_witness :
  exists s',
    ProcessMeasurement (run_s1 true) run_second = Ok s' /\
    (is_initialized_ (run_s1 true) = false ->
     x_pred_ s' 3%nat = 0 /\ - PI < x_pred_ s' 3%nat <= PI) /\
    (is_initialized_ (run_s1 true) = true ->
     exists s1,
       Prediction (run_s1 true) (elapsed (run_s1 true) run_second) = Ok s1 /\
       x_pred_ s1 3%nat
       = x_pred_ (run_s1 true) 3%nat
         + x_pred_ (run_s1 true) 4%nat * elapsed (run_s1 true) run_second /\
       (sensor_type_ run_second = LASER ->
        x_pred_ s' 3%nat = x_pred_ s1 3%nat + lidar_heading_correction s1 run_second)).
Proof.
  destruct (run_second_call true) as (s3 & H & _).
  exists s3. split; [exact H|].
  exact (heading_after_call (run_s1 true) s3 run_second H).
Defined.

(** C2, the claim as stated fails: a filter whose memory held [run_P], given a
    lidar measurement (0, 0) at time 0 and a lidar measurement (100, 0) one
    second later, ends with the heading 100/5.6325 ≈ 17.75 > π. *)
Lemma heading_leaves_interval :
  exists s1 s2,
    ProcessMeasurement (UKF_new run_mem) run_first = Ok s1 /\
    ProcessMeasurement s1 run_second = Ok s2 /\
    reachable s2 /\
    x_pred_ s2 3%nat = 100 / 5.6325 /\
    ~ (- PI < x_pred_ s2 3%nat <= PI).
Proof.
  destruct (run_second_call true) as (s3 & H & _ & Hh).
  exists (run_s1 true), s3.
  split; [exact (run_first_call true)|]. split; [exact H|]. split; [|split].
  - apply (reach_next (run_s1 true) run_second s3); [|exact H].
    apply (reach_first run_mem run_first). exact (run_first_call true).
  - exact Hh.
  - rewrite Hh. pose proof PI_4. lra.
Qed.

(** C3.  The initialization call assigns the state vector, the timestamp and
    the initialized flag only: the covariance [P_pred_], like the other
    matrices, keeps the values the memory held at construction, whatever they
    are, and these are the values the next call's prediction puts into the
    augmented covariance it factorizes.  Nothing makes them symmetric or
    positive semi-definite: a content that is not symmetric and has a negative
    diagonal entry is left as it is, and with zeroed memory the factorization
    of the second call fails. *)
Theorem covariance_never_initialized (mem : UKF) (m : MeasurementPackage) :
  exists s1,
    ProcessMeasurement (UKF_new mem) m = Ok s1 /\
    is_initialized_ s1 = true /\
    P_pred_ s1 = P_pred_ mem /\
    (Xsig_pred_ s1 = Xsig_pred_ mem /\ weights_ s1 = weights_ mem /\
     Xsig_aug s1 = Xsig_aug mem /\ x_aug s1 = x_aug mem /\ P_aug s1 = P_aug mem) /\
    (forall r c, (r < 5)%nat -> (c < 5)%nat ->
                 augmented_covariance s1 r c = P_pred_ mem r c) /\
    (P_pred_ mem = mzero ->
     forall m', ProcessMeasurement s1 m' = Err NumericalIssue) /\
    (exists mem' s1',
        ProcessMeasurement (UKF_new mem') m = Ok s1' /\
        P_pred_ s1' 0%nat 1%nat <> P_pred_ s1' 1%nat 0%nat /\
        P_pred_ s1' 0%nat 0%nat < 0).
Proof.
  destruct (first_call_ok (UKF_new mem) m eq_refl)
    as (s1 & Hs1 & _ & Hinit & HP & Hrest).
  change (P_pred_ (UKF_new mem)) with (P_pred_ mem) in HP.
  exists s1. split; [exact Hs1|]. split; [exact Hinit|].
  split; [exact HP|]. split; [exact Hrest|]. split; [|split].
  - intros r c Hr Hc. rewrite augmented_covariance_state by assumption.
    now rewrite HP.
  - intros Hzero m'. unfold ProcessMeasurement. rewrite Hinit. cbn [negb].
    unfold Prediction, GenerateSigmaPoints.
    change n_aug_ with (S 6). rewrite llt_fails_first; [reflexivity|].
    rewrite augmented_covariance_state, HP, Hzero by lia. cbv [mzero]. lra.
  - set (mem' := set_P_pred (set_coef (set_coef mzero 0 1 1) 0 0 (-1)) mem).
    destruct (first_call_ok (UKF_new mem') m eq_refl)
      as (s1' & Hs1' & _ & _ & HP' & _).
    exists mem', s1'. split; [exact Hs1'|]. rewrite HP'.
    cbv [mem' UKF_new set_P_pred P_pred_ set_coef mzero Nat.eqb andb].
    split; lra.
Qed.

(** C4 (as the code has it).  For every real angle θ the two normalization
    loops end, and the value they leave lies in the closed interval [-π, π]
    (above -π whenever θ itself is above -π); normalizing a normalized value
    returns it unchanged. *)
Theorem normalize_angle_closed_interval (theta : R) :
  (exists fuel, normalize_fuel fuel theta = Some (normalize_angle theta)) /\
  - PI <= normalize_angle theta <= PI /\
  (- PI < theta -> - PI < normalize_angle theta) /\
  normalize_angle (normalize_angle theta) = normalize_angle theta.
Proof.
  split; [exists (turns theta); apply normalize_angle_fuel|].
  split; [apply normalize_angle_range|].
  split; [apply normalize_angle_open|].
  apply normalize_angle_id, normalize_angle_range.
Qed.

(** C4, the claim as stated fails at θ = -π: the second loop tests
    [a < -M_PI], so -π is left as it is, outside (-π, π]. *)
Lemma normalize_minus_pi :
  normalize_fuel 1 (- PI) = Some (- PI) /\
  normalize_angle (- PI) = - PI /\
  ~ (- PI < normalize_angle (- PI) <= PI).
Proof.
  pose proof PI_gt_3 as HPI.
  assert (Hid : normalize_angle (- PI) = - PI) by (apply normalize_angle_id; lra).
  split; [|split].
  - unfold normalize_fuel. simpl.
    destruct (Rgt_dec (- PI) PI) as [H|_]; [lra|].
    destruct (Rlt_dec (- PI) (- PI)) as [H|_]; [lra|]. reflexivity.
  - exact Hid.
  - rewrite Hid. lra.
Qed.

(** C5.  When no time has elapsed (Δt = 0) and the augmented covariance has a
    Cholesky factor, the prediction cycle returns the state mean it started
    from.  Every sigma point is propagated to itself, so the noise terms of the
    process model add nothing; and the sigma points drawn along the two noise
    directions (columns 6, 7, 13, 14) coincide with the mean, so their
    residuals, hence their terms of the covariance sum, are zero. *)
Theorem prediction_without_elapsed_time (s : UKF) (L : Mat) :
  llt n_aug_ (augmented_covariance s) = Ok L ->
  exists s',
    Prediction s 0 = Ok s' /\
    (forall r, (r < 5)%nat -> x_pred_ s' r = x_pred_ s r) /\
    (forall r k, (r < 5)%nat -> (k < 15)%nat ->
                 Xsig_pred_ s' r k = Xsig_aug s' r k) /\
    (forall k r, k = 6%nat \/ k = 7%nat \/ k = 13%nat \/ k = 14%nat ->
                 (r < 5)%nat ->
                 vset (vsub (col (Xsig_pred_ s') k) (x_pred_ s')) 3
                      (normalize_angle (Xsig_pred_ s' 3%nat k - x_pred_ s' 3%nat)) r
                 = 0).
Proof.
  intros HL.
  destruct (Prediction_ok s 0 L HL)
    as (s' & Hs' & HX & HW & Hx & HP & _ & _ & _ & _ & HXa).
  exists s'. split; [exact Hs'|].
  assert (Hmean : forall r, (r < 5)%nat -> x_pred_ s' r = x_pred_ s r).
  { intros r Hr. now apply (prediction_still s s' L r). }
  assert (Hsame : forall r k, (r < 5)%nat -> (k < 15)%nat ->
                              Xsig_pred_ s' r k = Xsig_aug s' r k).
  { intros r k Hr Hk. rewrite HX, HXa, predicted_points_at by lia.
    now apply process_model_still. }
  split; [exact Hmean|]. split; [exact Hsame|].
  assert (Hnoise : forall k r, k = 6%nat \/ k = 7%nat \/ k = 13%nat \/ k = 14%nat ->
                               (r < 5)%nat -> Xsig_pred_ s' r k = x_pred_ s' r).
  { intros k r Hk Hr.
    rewrite Hsame, HXa, Hmean by lia.
    set (xa := augmented_mean s).
    assert (H5 : L r 5%nat = 0) by (apply (llt_lower _ _ _ _ _ HL); lia).
    assert (H6 : L r 6%nat = 0) by (apply (llt_lower _ _ _ _ _ HL); lia).
    destruct Hk as [-> | [-> | [-> | ->]]]; sigma_row xa L r;
      rewrite ?H5, ?H6; unfold xa; rewrite augmented_mean_state by lia; lra. }
  intros k r Hk Hr. unfold vset, vsub, col.
  destruct (Nat.eqb r 3).
  - rewrite (Hnoise k 3%nat Hk) by lia.
    rewrite Rminus_diag. apply normalize_angle_id.
    pose proof PI_gt_3. lra.
  - rewrite (Hnoise k r Hk Hr). lra.
Qed.

Lemma prediction_without_elapsed_time_witness :
  exists s',
    Prediction (run_s1 true) 0 = Ok s' /\
    (forall r, (r < 5)%nat -> x_pred_ s' r = x_pred_ (run_s1 true) r) /\
    (forall r k, (r < 5)%nat -> (k < 15)%nat ->
                 Xsig_pred_ s' r k = Xsig_aug s' r k) /\
    (forall k r, k = 6%nat \/ k = 7%nat \/ k = 13%nat \/ k = 14%nat ->
                 (r < 5)%nat ->
                 vset (vsub (col (Xsig_pred_ s') k) (x_pred_ s')) 3
                      (normalize_angle (Xsig_pred_ s' 3%nat k - x_pred_ s' 3%nat)) r
                 = 0).
Proof.
  exact (prediction_without_elapsed_time (run_s1 true) run_L (run_llt true)).
Defined.

(** C6.  On the first call (filter not initialized) [ProcessMeasurement] sets
    the state to (ρ·cos φ, ρ·sin φ, 0, 0, 0) for a radar measurement (ρ, φ, ...)
    and to (x, y, 0, 0, 0) for a lidar measurement (x, y), records the
    timestamp and marks the filter initialized; every other member is left as
    it was, so no prediction and no correction takes place. *)
Theorem first_call_initializes (s : UKF) (m : MeasurementPackage) :
  is_initialized_ s = false ->
  exists s',
    ProcessMeasurement s m = Ok s' /\
    x_pred_ s' 0%nat
    = match sensor_type_ m with
      | RADAR => raw_measurements_ m 0%nat * cos (raw_measurements_ m 1%nat)
      | LASER => raw_measurements_ m 0%nat
      end /\
    x_pred_ s' 1%nat
    = match sensor_type_ m with
      | RADAR => raw_measurements_ m 0%nat * sin (raw_measurements_ m 1%nat)
      | LASER => raw_measurements_ m 1%nat
      end /\
    x_pred_ s' 2%nat = 0 /\ x_pred_ s' 3%nat = 0 /\ x_pred_ s' 4%nat = 0 /\
    previous_timestamp_ s' = timestamp_ m /\
    is_initialized_ s' = true /\
    P_pred_ s' = P_pred_ s /\ Xsig_pred_ s' = Xsig_pred_ s /\
    weights_ s' = weights_ s /\ Xsig_aug s' = Xsig_aug s /\
    x_aug s' = x_aug s /\ P_aug s' = P_aug s /\
    use_laser_ s' = use_laser_ s /\ use_radar_ s' = use_radar_ s.
Proof.
  intros Hinit. unfold ProcessMeasurement. rewrite Hinit. cbn [negb].
  eexists. split; [reflexivity|].
  destruct (sensor_type_ m); repeat split; reflexivity.
Qed.

Lemma first_call_initializes_witness :
  exists s',
    ProcessMeasurement (UKF_new run_mem) (mkMeas 5 RADAR (vec3 2 0 1)) = Ok s' /\
    x_pred_ s' 0%nat = 2 * cos 0 /\
    x_pred_ s' 1%nat = 2 * sin 0 /\
    x_pred_ s' 2%nat = 0 /\ x_pred_ s' 3%nat = 0 /\ x_pred_ s' 4%nat = 0 /\
    previous_timestamp_ s' = 5%Z /\
    is_initialized_ s' = true /\
    P_pred_ s' = run_P /\ Xsig_pred_ s' = mzero /\
    weights_ s' = vzero /\ Xsig_aug s' = mzero /\
    x_aug s' = vzero /\ P_aug s' = mzero /\
    use_laser_ s' = true /\ use_radar_ s' = true.
Proof.
  exact (first_call_initializes (UKF_new run_mem) (mkMeas 5 RADAR (vec3 2 0 1))
           eq_refl).
Defined.

(** C7.  The radar measurement model divides by the range √(px²+py²) without
    a test: for a predicted sigma point with px = 0 and py = 0 the range is 0,
    the range-rate quotient is a division by zero, and so is the whole radar
    update. *)
Theorem radar_range_rate_unguarded (s : UKF) (m : MeasurementPackage) (i : nat) :
  (i < 15)%nat ->
  Xsig_pred_ s 0%nat i = 0 -> Xsig_pred_ s 1%nat i = 0 ->
  sqrt (Xsig_pred_ s 0%nat i * Xsig_pred_ s 0%nat i
        + Xsig_pred_ s 1%nat i * Xsig_pred_ s 1%nat i) = 0 /\
  radar_column (Xsig_pred_ s) i = Err DivByZero /\
  UpdateRadar s m = Err DivByZero.
Proof.
  intros Hi Hx Hy. split; [|split].
  - rewrite Hx, Hy. replace (0 * 0 + 0 * 0) with 0 by lra. apply sqrt_0.
  - now apply radar_column_at_origin.
  - unfold UpdateRadar.
    now rewrite (radar_sigma_points_at_origin (Xsig_pred_ s) i Hi Hx Hy).
Qed.

Lemma radar_range_rate_unguarded_witness :
  exists s2,
    Prediction (run_s1 true) 1 = Ok s2 /\
    (sqrt (Xsig_pred_ s2 0%nat 0%nat * Xsig_pred_ s2 0%nat 0%nat
           + Xsig_pred_ s2 1%nat 0%nat * Xsig_pred_ s2 1%nat 0%nat) = 0 /\
     radar_column (Xsig_pred_ s2) 0 = Err DivByZero /\
     UpdateRadar s2 run_radar = Err DivByZero).
Proof.
  destruct (run_prediction true) as (s2 & Hs2 & _ & _ & _ & HX).
  exists s2. split; [exact Hs2|].
  apply (radar_range_rate_unguarded s2 run_radar 0).
  - lia.
  - rewrite HX by lia. reflexivity.
  - rewrite HX by lia. reflexivity.
Defined.

(** C8.  With λ = 3 − n_aug and n_aug = 7, [compute_weights] leaves
    weight 0 equal to λ/(λ+n_aug) = −4/3 and each of the weights 1..14 equal to
    1/(2(λ+n_aug)) = 1/6, and the fifteen weights sum to 1 exactly. *)
Theorem weights_sum_to_one (w : Vec) :
  exists w',
    compute_weights w = Ok w' /\
    lambda_ = 3 - 7 /\
    w' 0%nat = lambda_ / (lambda_ + 7) /\ w' 0%nat = - 4 / 3 /\
    (forall i, (1 <= i < 15)%nat ->
               w' i = 1 / (2 * (lambda_ + 7)) /\ w' i = 1 / 6) /\
    sum_n 15 w' = 1.
Proof.
  exists (weights_of w). split; [apply compute_weights_ok|].
  split; [rewrite lambda_val; lra|].
  split; [rewrite weights_of_0, lambda_val; lra|].
  split; [apply weights_of_0|].
  split.
  - intros i Hi. rewrite (weights_of_others w i Hi), lambda_val. split; lra.
  - cbv [sum_n]. weights_row w. lra.
Qed.

(** C9.  In the process model the quotient by the yaw rate is formed only
    when |yaw rate| > 1e-3: in that case the closed-form integration is used,
    otherwise the first-order formulas, which contain no quotient.  So the
    propagation of a sigma point never fails, and it would not even if every
    quotient by a divisor of magnitude at most 1e-3 were an error. *)
Theorem yaw_rate_division_guarded (X : Mat) (i : nat) (delta_t : R) :
  (Rabs (X 4%nat i) > 0.001 ->
   X 4%nat i <> 0 /\ predict_column X i delta_t = Ok (turning X i delta_t)) /\
  (~ Rabs (X 4%nat i) > 0.001 ->
   predict_column X i delta_t = Ok (straight X i delta_t)) /\
  predict_column_with (guarded_div 0.001) X i delta_t
  = predict_column X i delta_t /\
  (forall s, exists s', PredictSigmaPoints s n_aug_ delta_t = Ok s').
Proof.
  split; [|split; [|split]].
  - intros Hturn. split.
    + intros H0. rewrite H0, Rabs_R0 in Hturn. lra.
    + rewrite predict_column_ok. unfold process_model.
      destruct (Rgt_dec _ _); [reflexivity|contradiction].
  - intros Hstraight. rewrite predict_column_ok. unfold process_model.
    destruct (Rgt_dec _ _); [contradiction|reflexivity].
  - unfold predict_column, predict_column_with.
    destruct (Rgt_dec (Rabs (X 4%nat i)) 0.001) as [Hturn|_]; [|reflexivity].
    assert (Hnz : X 4%nat i <> 0).
    { intros H0. rewrite H0, Rabs_R0 in Hturn. lra. }
    rewrite (checked_div_ok _ _ Hnz). unfold guarded_div.
    destruct (Rle_dec (Rabs (X 4%nat i)) 0.001); [lra|reflexivity].
  - intros s. eexists. apply PredictSigmaPoints_ok.
Qed.

(** C10.  When [L] is the lower Cholesky factor of the augmented covariance,
    [GenerateSigmaPoints] leaves in [Xsig_aug] the augmented mean as column 0,
    mean + √3·L[:,i] as column i+1 and mean − √3·L[:,i] as column i+8, for
    i = 0..6, where √3 = √(λ + n_aug). *)
Theorem sigma_point_columns (s : UKF) (L : Mat) :
  llt n_aug_ (augmented_covariance s) = Ok L ->
  exists s',
    GenerateSigmaPoints s = Ok s' /\
    sqrt (lambda_ + of_int (Z.of_nat n_aug_)) = sqrt 3 /\
    x_aug s' = augmented_mean s /\
    col (Xsig_aug s') 0 = x_aug s' /\
    forall i, (i < 7)%nat ->
      col (Xsig_aug s') (i + 1) = vadd (x_aug s') (vscale (sqrt 3) (col L i)) /\
      col (Xsig_aug s') (i + 8) = vsub (x_aug s') (vscale (sqrt 3) (col L i)).
Proof.
  intros HL. rewrite (GenerateSigmaPoints_ok s L HL).
  eexists. split; [reflexivity|]. split; [apply spread_val|].
  split; [reflexivity|].
  cbv beta iota delta [set_Xsig_aug set_P_aug set_x_aug Xsig_aug x_aug].
  split.
  - extensionality r. unfold col. apply sigma_columns_first.
  - intros i Hi. split; extensionality r; unfold col, vadd, vsub, vscale.
    + now apply sigma_columns_plus.
    + replace (i + 8)%nat with (i + 1 + n_aug_)%nat by (unfold n_aug_; lia).
      now apply sigma_columns_minus.
Qed.

Lemma sigma_point_columns_witness :
  exists s',
    GenerateSigmaPoints (run_s1 true) = Ok s' /\
    sqrt (lambda_ + of_int (Z.of_nat n_aug_)) = sqrt 3 /\
    x_aug s' = augmented_mean (run_s1 true) /\
    col (Xsig_aug s') 0 = x_aug s' /\
    forall i, (i < 7)%nat ->
      col (Xsig_aug s') (i + 1) = vadd (x_aug s') (vscale (sqrt 3) (col run_L i)) /\
      col (Xsig_aug s') (i + 8) = vsub (x_aug s') (vscale (sqrt 3) (col run_L i)).
Proof. exact (sigma_point_columns (run_s1 true) run_L (run_llt true)). Defined.

(** * Further properties of the code *)

(** ** Normalization moves an angle by whole turns *)

Lemma while_above_turns (n : nat) :
  forall a b, while_above n a = Some b -> exists k : nat, b = a - 2 * PI * INR k.
Proof.
  induction n as [|n IH]; intros a b H; [discriminate|].
  simpl in H. destruct (Rgt_dec a PI).
  - destruct (IH _ _ H) as [k ->]. exists (S k). rewrite S_INR. lra.
  - injection H as <-. exists 0%nat. simpl. lra.
Qed.

Lemma while_below_turns (n : nat) :
  forall a b, while_below n a = Some b -> exists k : nat, b = a + 2 * PI * INR k.
Proof.
  induction n as [|n IH]; intros a b H; [discriminate|].
  simpl in H. destruct (Rlt_dec a (- PI)).
  - destruct (IH _ _ H) as [k ->]. exists (S k). rewrite S_INR. lra.
  - injection H as <-. exists 0%nat. simpl. lra.
Qed.

Lemma normalize_angle_turns (a : R) :
  exists down up : nat,
    normalize_angle a = a - 2 * PI * INR down + 2 * PI * INR up.
Proof.
  pose proof (normalize_angle_fuel a) as H. unfold normalize_fuel in H.
  destruct (while_above (turns a) a) as [b|] eqn:Hb; [|discriminate].
  destruct (while_above_turns _ _ _ Hb) as [k ->].
  destruct (while_below_turns _ _ _ H) as [k' ->].
  now exists k, k'.
Qed.

(** X1.  Angle normalization changes an angle by a whole number of turns
    only: the result is θ + 2πk for an integer k, so it has the sine and the
    cosine of θ. *)
Theorem normalize_angle_same_direction (a : R) :
  (exists k : Z, normalize_angle a = a + 2 * PI * IZR k) /\
  sin (normalize_angle a) = sin a /\
  cos (normalize_angle a) = cos a.
Proof.
  destruct (normalize_angle_turns a) as (down & up & H).
  split; [|split].
  - exists (Z.of_nat up - Z.of_nat down)%Z.
    rewrite H, minus_IZR, <- !INR_IZR_INZ. lra.
  - assert (Hs : sin (normalize_angle a + 2 * INR down * PI)
                 = sin (a + 2 * INR up * PI)) by (f_equal; rewrite H; lra).
    now rewrite !sin_period in Hs.
  - assert (Hc : cos (normalize_angle a + 2 * INR down * PI)
                 = cos (a + 2 * INR up * PI)) by (f_equal; rewrite H; lra).
    now rewrite !cos_period in Hc.
Qed.

(** ** The sigma points carry the mean and the covariance *)

Lemma sigma_covariance (w xa : Vec) (L : Mat) (r c : nat) :
  sum_n 15 (fun k =>
              weights_of w k
              * (sigma_columns xa L (set_col mzero 0 xa) r k - xa r)
              * (sigma_columns xa L (set_col mzero 0 xa) c k - xa c))
  = mmul 7 L (transpose L) r c.
Proof.
  cbv [sum_n mmul transpose]. weights_row w.
  sigma_row xa L r. sigma_row xa L c.
  transitivity
    (sqrt 3 * sqrt 3 / 3
     * (L r 0%nat * L c 0%nat + L r 1%nat * L c 1%nat + L r 2%nat * L c 2%nat
        + L r 3%nat * L c 3%nat + L r 4%nat * L c 4%nat + L r 5%nat * L c 5%nat
        + L r 6%nat * L c 6%nat)).
  - field.
  - rewrite sqrt3_sqr. field.
Qed.

Lemma augmented_covariance_symmetric (s : UKF) :
  symmetric5 (P_pred_ s) ->
  forall i j, augmented_covariance s i j = augmented_covariance s j i.
Proof.
  intros Hsym i j. unfold augmented_covariance.
  run_cases i j;
    cbv [set_coef set_topLeftCorner mzero Nat.eqb Nat.ltb Nat.leb andb];
    try reflexivity; apply Hsym; lia.
Qed.

Lemma run_P_symmetric (b : bool) : symmetric5 (P_pred_ (run_s1 b)).
Proof.
  intros r c Hr Hc.
  do 5 (destruct r as [|r]; [do 5 (destruct c as [|c]; [reflexivity|]); lia|]).
  lia.
Qed.

(** X2.  The sigma points carry the first two moments of the augmented state:
    for a symmetric covariance with Cholesky factor [L], their mean under the
    filter's weights is the augmented mean and their covariance under these
    weights is the augmented covariance. *)
Theorem sigma_points_carry_moments (s : UKF) (L : Mat) :
  llt n_aug_ (augmented_covariance s) = Ok L ->
  symmetric5 (P_pred_ s) ->
  exists s',
    GenerateSigmaPoints s = Ok s' /\
    forall w r c, (r < 7)%nat -> (c < 7)%nat ->
      sum_n 15 (fun k => weights_of w k * Xsig_aug s' r k) = x_aug s' r /\
      sum_n 15 (fun k => weights_of w k
                         * (Xsig_aug s' r k - x_aug s' r)
                         * (Xsig_aug s' c k - x_aug s' c))
      = P_aug s' r c.
Proof.
  intros HL Hsym. rewrite (GenerateSigmaPoints_ok s L HL).
  eexists. split; [reflexivity|].
  cbv beta iota delta [set_Xsig_aug set_P_aug set_x_aug Xsig_aug x_aug P_aug].
  intros w r c Hr Hc. split.
  - apply sigma_mean.
  - rewrite sigma_covariance.
    apply (llt_factor n_aug_ (augmented_covariance s) L r c HL);
      [now apply augmented_covariance_symmetric|exact Hr|exact Hc].
Qed.

Lemma sigma_points_carry_moments_witness :
  exists s',
    GenerateSigmaPoints (run_s1 true) = Ok s' /\
    forall w r c, (r < 7)%nat -> (c < 7)%nat ->
      sum_n 15 (fun k => weights_of w k * Xsig_aug s' r k) = x_aug s' r /\
      sum_n 15 (fun k => weights_of w k
                         * (Xsig_aug s' r k - x_aug s' r)
                         * (Xsig_aug s' c k - x_aug s' c))
      = P_aug s' r c.
Proof.
  exact (sigma_points_carry_moments (run_s1 true) run_L (run_llt true)
           (run_P_symmetric true)).
Defined.

(** ** A prediction over no time gives the covariance back *)

Lemma prediction_still_cov (s : UKF) (L : Mat) :
  llt n_aug_ (augmented_covariance s) = Ok L ->
  symmetric5 (P_pred_ s) ->
  (forall i, (i < 7)%nat -> - PI <= sqrt 3 * L 3%nat i <= PI) ->
  exists s',
    Prediction s 0 = Ok s' /\
    forall r c, (r < 5)%nat -> (c < 5)%nat -> P_pred_ s' r c = P_pred_ s r c.
Proof.
  intros HL Hsym Hspread.
  destruct (Prediction_ok s 0 L HL)
    as (s' & Hs' & HX & HW & Hx & HP & _ & _ & _ & _ & _).
  exists s'. split; [exact Hs'|]. intros r c Hr Hc.
  set (xa := augmented_mean s) in *.
  set (Xa := sigma_columns xa L (set_col mzero 0 xa)) in *.
  assert (Hmean : forall i, (i < 5)%nat -> x_pred_ s' i = xa i).
  { intros i Hi. rewrite (prediction_still s s' L i HL Hs' Hi).
    unfold xa. now rewrite augmented_mean_state. }
  assert (Hsame : forall i k, (i < 5)%nat -> (k < 15)%nat ->
                              Xsig_pred_ s' i k = Xa i k).
  { intros i k Hi Hk. rewrite HX, predicted_points_at by lia.
    now apply process_model_still. }
  assert (Hres : forall k i, (k < 15)%nat -> (i < 5)%nat ->
            vset (vsub (col (Xsig_pred_ s') k) (x_pred_ s')) 3
                 (normalize_angle (Xsig_pred_ s' 3%nat k - x_pred_ s' 3%nat)) i
            = Xa i k - xa i).
  { intros k i Hk Hi. unfold vset, vsub, col.
    destruct (Nat.eqb_spec i 3) as [->|_].
    - rewrite Hsame, Hmean by lia. apply normalize_angle_id.
      pose proof PI_gt_3 as HPI. unfold Xa.
      do 15 (destruct k as [|k];
             [sigma_row xa L 3%nat;
              first [ replace (xa 3%nat - xa 3%nat) with 0 by lra; lra
                    | match goal with
                      | |- context [L 3%nat ?i] =>
                          pose proof (Hspread i ltac:(lia)); lra
                      end ]|]).
      lia.
    - now rewrite Hsame, Hmean by lia. }
  rewrite HP, weighted_covariance_at, HW.
  rewrite (sum_n_ext 15 _
             (fun k => weights_of (weights_ s) k * (Xa r k - xa r) * (Xa c k - xa c))).
  - unfold Xa. rewrite sigma_covariance.
    destruct (llt_factor n_aug_ (augmented_covariance s) L r c HL) as [HF _];
      [now apply augmented_covariance_symmetric|unfold n_aug_; lia
      |unfold n_aug_; lia|].
    etransitivity; [exact HF|]. now apply augmented_covariance_state.
  - intros k Hk. now rewrite !Hres by lia.
Qed.

(** X3.  A prediction over no time is the identity on the belief: when the
    covariance is symmetric, has a Cholesky factor, and the heading spread of
    the sigma points stays within [-π, π] (so that no residual is wrapped),
    [Prediction] with Δt = 0 returns the same mean and the same covariance. *)
Theorem prediction_still_covariance (s : UKF) (L : Mat) :
  llt n_aug_ (augmented_covariance s) = Ok L ->
  symmetric5 (P_pred_ s) ->
  (forall i, (i < 7)%nat -> - PI <= sqrt 3 * L 3%nat i <= PI) ->
  exists s',
    Prediction s 0 = Ok s' /\
    (forall r, (r < 5)%nat -> x_pred_ s' r = x_pred_ s r) /\
    (forall r c, (r < 5)%nat -> (c < 5)%nat -> P_pred_ s' r c = P_pred_ s r c).
Proof.
  intros HL Hsym Hspread.
  destruct (prediction_still_cov s L HL Hsym Hspread) as (s' & Hs' & HP).
  exists s'. split; [exact Hs'|]. split; [|exact HP].
  intros r Hr. exact (prediction_still s s' L r HL Hs' Hr).
Qed.

Lemma run_L_spread (i : nat) :
  (i < 7)%nat -> - PI <= sqrt 3 * run_L 3%nat i <= PI.
Proof.
  intros Hi. pose proof sqrt3_bounds. pose proof PI_gt_3.
  do 7 (destruct i as [|i]; [cbv [run_L]; lra|]). lia.
Qed.

Lemma prediction_still_covariance_witness :
  exists s',
    Prediction (run_s1 true) 0 = Ok s' /\
    (forall r, (r < 5)%nat -> x_pred_ s' r = x_pred_ (run_s1 true) r) /\
    (forall r c, (r < 5)%nat -> (c < 5)%nat ->
                 P_pred_ s' r c = P_pred_ (run_s1 true) r c).
Proof.
  exact (prediction_still_covariance (run_s1 true) run_L (run_llt true)
           (run_P_symmetric true) run_L_spread).
Defined.

(** ** What a step can fail with *)

Lemma llt_fold_error (A : Mat) (l : list nat) :
  forall acc e,
    (forall e', acc = Err e' -> e' = NumericalIssue) ->
    fold_left (fun acc i => a <- acc ;; llt_column A i a) l acc = Err e ->
    e = NumericalIssue.
Proof.
  induction l as [|i l IH]; intros acc e Hacc H; simpl in H.
  - now apply Hacc.
  - refine (IH _ _ _ H).
    intros e' He'. destruct acc as [a|e0]; cbn [bind] in He'.
    + unfold llt_column in He'. destruct (Rle_dec _ 0); congruence.
    + apply Hacc. congruence.
Qed.

Lemma llt_error (n : nat) (A : Mat) (e : error) :
  llt n A = Err e -> e = NumericalIssue.
Proof.
  intros H. apply (llt_fold_error A (seq 0 n) (Ok mzero) e); [discriminate|exact H].
Qed.

Lemma Prediction_error (s : UKF) (delta_t : R) (e : error) :
  Prediction s delta_t = Err e ->
  e = NumericalIssue /\ llt n_aug_ (augmented_covariance s) = Err NumericalIssue.
Proof.
  intros H. destruct (llt n_aug_ (augmented_covariance s)) as [L|e'] eqn:HL.
  - destruct (Prediction_ok s delta_t L HL) as (s' & Hs' & _). congruence.
  - pose proof (llt_error _ _ _ HL) as ->.
    unfold Prediction, GenerateSigmaPoints in H. rewrite HL in H.
    cbn [bind] in H. split; congruence.
Qed.

Lemma Prediction_factor (s s' : UKF) (delta_t : R) :
  Prediction s delta_t = Ok s' ->
  exists L, llt n_aug_ (augmented_covariance s) = Ok L.
Proof.
  intros H. destruct (llt n_aug_ (augmented_covariance s)) as [L|e] eqn:HL.
  - now exists L.
  - unfold Prediction, GenerateSigmaPoints in H. rewrite HL in H. discriminate.
Qed.

(** ** The means the process model is linear in *)

Lemma prediction_linear_means (s s' : UKF) (delta_t : R) (L : Mat) :
  llt n_aug_ (augmented_covariance s) = Ok L ->
  Prediction s delta_t = Ok s' ->
  x_pred_ s' 2%nat = x_pred_ s 2%nat /\ x_pred_ s' 4%nat = x_pred_ s 4%nat.
Proof.
  intros HL Hs'.
  destruct (Prediction_ok s delta_t L HL) as (t & Ht & HX & HW & Hx & _).
  rewrite Ht in Hs'. injection Hs' as <-.
  rewrite Hx, !weighted_mean_at, HW, HX.
  set (xa := augmented_mean s).
  set (Xa := sigma_columns xa L (set_col mzero 0 xa)).
  split.
  - rewrite (sum_n_ext 15 _
               (fun k => weights_of (weights_ s) k * Xa 2%nat k
                         + weights_of (weights_ s) k * Xa 5%nat k * delta_t)).
    + rewrite !sum_n_plus, !sum_n_scale. unfold Xa. rewrite !sigma_mean.
      unfold xa. rewrite augmented_mean_state, augmented_mean_noise by lia. lra.
    + intros k Hk. rewrite predicted_points_at by lia.
      rewrite process_model_speed. lra.
  - rewrite (sum_n_ext 15 _
               (fun k => weights_of (weights_ s) k * Xa 4%nat k
                         + weights_of (weights_ s) k * Xa 6%nat k * delta_t)).
    + rewrite !sum_n_plus, !sum_n_scale. unfold Xa. rewrite !sigma_mean.
      unfold xa. rewrite augmented_mean_state, augmented_mean_noise by lia. lra.
    + intros k Hk. rewrite predicted_points_at by lia.
      rewrite process_model_rate. lra.
Qed.

(** X4.  Whatever the time step, also a negative one, a successful prediction
    leaves the mean speed and the mean heading rate as they were and moves the
    mean heading by heading rate times Δt. *)
Theorem prediction_keeps_speed_and_turn_rate (s s' : UKF) (delta_t : R) :
  Prediction s delta_t = Ok s' ->
  x_pred_ s' 2%nat = x_pred_ s 2%nat /\
  x_pred_ s' 3%nat = x_pred_ s 3%nat + x_pred_ s 4%nat * delta_t /\
  x_pred_ s' 4%nat = x_pred_ s 4%nat.
Proof.
  intros H. destruct (Prediction_factor s s' delta_t H) as [L HL].
  destruct (prediction_linear_means s s' delta_t L HL H) as [H2 H4].
  split; [exact H2|]. split; [|exact H4].
  exact (prediction_heading s s' delta_t L HL H).
Qed.

Lemma prediction_keeps_speed_and_turn_rate_witness :
  exists s',
    Prediction (run_s1 true) 1 = Ok s' /\
    x_pred_ s' 2%nat = x_pred_ (run_s1 true) 2%nat /\
    x_pred_ s' 3%nat
    = x_pred_ (run_s1 true) 3%nat + x_pred_ (run_s1 true) 4%nat * 1 /\
    x_pred_ s' 4%nat = x_pred_ (run_s1 true) 4%nat.
Proof.
  destruct (run_prediction true) as (s2 & H & _).
  exists s2. split; [exact H|].
  exact (prediction_keeps_speed_and_turn_rate (run_s1 true) s2 1 H).
Defined.

(** ** The covariance is symmetric after every later call *)

Lemma weighted_covariance_symmetric (w : Vec) (X : Mat) (x : Vec) (r c : nat) :
  weighted_covariance w X x r c = weighted_covariance w X x c r.
Proof.
  rewrite !weighted_covariance_at. apply sum_n_ext. intros k _. ring.
Qed.

Lemma Prediction_symmetric (s s' : UKF) (delta_t : R) :
  Prediction s delta_t = Ok s' -> forall r c, P_pred_ s' r c = P_pred_ s' c r.
Proof.
  intros H r c.
  destruct (llt n_aug_ (augmented_covariance s)) as [L|e] eqn:HL.
  - destruct (Prediction_ok s delta_t L HL) as (t & Ht & _ & _ & _ & HP & _).
    rewrite Ht in H. injection H as <-. rewrite HP.
    apply weighted_covariance_symmetric.
  - unfold Prediction, GenerateSigmaPoints in H. rewrite HL in H. discriminate.
Qed.

(** The entries of the lidar posterior covariance [(I - K H) P], for a gain
    [K = P H^T Si]. *)
Lemma lidar_covariance_entry (P Si : Mat) (r c : nat) :
  (r < 5)%nat ->
  mmul 5
    (msub Identity
       (mmul 2
          (mmul 2
             (mmul 5 P (transpose (mat_rows2 (vec5 1 0 0 0 0) (vec5 0 1 0 0 0))))
             Si)
          (mat_rows2 (vec5 1 0 0 0 0) (vec5 0 1 0 0 0))))
    P r c
  = P r c
    - (P r 0%nat * Si 0%nat 0%nat + P r 1%nat * Si 1%nat 0%nat) * P 0%nat c
    - (P r 0%nat * Si 0%nat 1%nat + P r 1%nat * Si 1%nat 1%nat) * P 1%nat c.
Proof.
  intros Hr.
  do 5 (destruct r as [|r]; [linalg; ring|]). lia.
Qed.

(** The entries of the inverse of the lidar innovation covariance. *)
Lemma lidar_inverse_entries (P Si : Mat) :
  inverse 2
    (madd (mmul 5 (mmul 5 (mat_rows2 (vec5 1 0 0 0 0) (vec5 0 1 0 0 0)) P)
                (transpose (mat_rows2 (vec5 1 0 0 0 0) (vec5 0 1 0 0 0))))
          (mat_rows2 (vec2 0.0225 0) (vec2 0 0.0225)))
  = Ok Si ->
  lidar_det P <> 0 /\
  Si 0%nat 0%nat = (P 1%nat 1%nat + 0.0225) / lidar_det P /\
  Si 0%nat 1%nat = - P 0%nat 1%nat / lidar_det P /\
  Si 1%nat 0%nat = - P 1%nat 0%nat / lidar_det P /\
  Si 1%nat 1%nat = (P 0%nat 0%nat + 0.0225) / lidar_det P.
Proof.
  set (S := madd _ _).
  assert (HS : det 2 S = lidar_det P).
  { unfold S, lidar_det. linalg. ring. }
  unfold inverse. rewrite HS.
  destruct (Req_dec_T (lidar_det P) 0) as [|Hdet]; [discriminate|].
  intros H. injection H as <-. split; [exact Hdet|].
  unfold S. repeat split; linalg; field; exact Hdet.
Qed.

Lemma UpdateLidar_symmetric (s s' : UKF) (m : MeasurementPackage) :
  symmetric5 (P_pred_ s) -> UpdateLidar s m = Ok s' -> symmetric5 (P_pred_ s').
Proof.
  intros Hsym H. unfold UpdateLidar in H. cbv zeta in H.
  destruct (inverse 2 _) as [Si|e] eqn:HSi; [|discriminate].
  cbn [bind] in H. injection H as <-.
  destruct (lidar_inverse_entries _ _ HSi) as (_ & _ & H01 & H10 & _).
  cbv beta iota delta [set_P_pred set_x_pred P_pred_]. fold (P_pred_ s).
  intros r c Hr Hc.
  rewrite !lidar_covariance_entry by assumption.
  rewrite H01, H10.
  rewrite (Hsym c 0%nat), (Hsym c 1%nat), (Hsym c r), (Hsym 1%nat 0%nat),
          (Hsym 0%nat r), (Hsym 1%nat r) by lia.
  unfold Rdiv. ring.
Qed.

(** The radar posterior covariance [P - K S K^T] is symmetric when [P] and
    [S] are. *)
Lemma radar_covariance_symmetric (P K S : Mat) (r c : nat) :
  P r c = P c r ->
  (forall a b, (a < 3)%nat -> (b < 3)%nat -> S a b = S b a) ->
  msub P (mmul 3 (mmul 3 K S) (transpose K)) r c
  = msub P (mmul 3 (mmul 3 K S) (transpose K)) c r.
Proof.
  intros HP HS. cbv [msub mmul sum_n transpose].
  rewrite HP, (HS 1%nat 0%nat), (HS 2%nat 0%nat), (HS 2%nat 1%nat) by lia.
  ring.
Qed.

Lemma UpdateRadar_symmetric (s s' : UKF) (m : MeasurementPackage) :
  symmetric5 (P_pred_ s) -> UpdateRadar s m = Ok s' -> symmetric5 (P_pred_ s').
Proof.
  intros Hsym H. unfold UpdateRadar in H.
  destruct (radar_sigma_points (Xsig_pred_ s)) as [Zsig|e]; [|discriminate].
  cbn [bind] in H. cbv zeta in H.
  destruct (inverse 3 _) as [Si|e]; [|discriminate].
  cbn [bind] in H. injection H as <-.
  cbv beta iota delta [set_P_pred set_x_pred P_pred_]. fold (P_pred_ s).
  intros r c Hr Hc. apply radar_covariance_symmetric; [now apply Hsym|].
  intros a b Ha Hb.
  do 3 (destruct a as [|a]; [do 3 (destruct b as [|b]; [unroll; ring|]); lia|]).
  lia.
Qed.

(** X5.  Every successful call after the initialization leaves a symmetric
    covariance, whatever the covariance was before: the prediction builds a
    symmetric matrix, and the lidar and the radar update keep it symmetric. *)
Theorem covariance_symmetric_after_call (s s' : UKF) (m : MeasurementPackage) :
  is_initialized_ s = true ->
  ProcessMeasurement s m = Ok s' ->
  symmetric5 (P_pred_ s').
Proof.
  intros Hinit H. unfold ProcessMeasurement in H. rewrite Hinit in H.
  cbn [negb] in H.
  destruct (Prediction s _) as [s1|e] eqn:HP; [|discriminate].
  cbn [bind] in H.
  assert (Hs1 : symmetric5 (P_pred_ s1)).
  { intros r c _ _. now apply (Prediction_symmetric s s1 _ HP). }
  destruct (sensor_type_ m).
  - destruct (UpdateLidar s1 m) as [s2|e] eqn:HU; [|discriminate].
    cbn [bind] in H. injection H as <-.
    exact (UpdateLidar_symmetric s1 s2 m Hs1 HU).
  - destruct (UpdateRadar s1 m) as [s2|e] eqn:HU; [|discriminate].
    cbn [bind] in H. injection H as <-.
    exact (UpdateRadar_symmetric s1 s2 m Hs1 HU).
Qed.

Lemma covariance_symmetric_after_call_witness :
  exists s',
    ProcessMeasurement (run_s1 true) run_second = Ok s' /\
    symmetric5 (P_pred_ s').
Proof.
  destruct (run_second_call true) as (s3 & H & _).
  exists s3. split; [exact H|].
  exact (covariance_symmetric_after_call (run_s1 true) s3 run_second eq_refl H).
Defined.

(** ** The lidar update in closed form *)

Lemma lidar_state_entry (P Si : Mat) (x z : Vec) (r : nat) :
  vadd x
    (mvmul 2
       (mmul 2
          (mmul 5 P (transpose (mat_rows2 (vec5 1 0 0 0 0) (vec5 0 1 0 0 0))))
          Si)
       (vsub z (mvmul 5 (mat_rows2 (vec5 1 0 0 0 0) (vec5 0 1 0 0 0)) x))) r
  = x r
    + (P r 0%nat * Si 0%nat 0%nat + P r 1%nat * Si 1%nat 0%nat)
      * (z 0%nat - x 0%nat)
    + (P r 0%nat * Si 0%nat 1%nat + P r 1%nat * Si 1%nat 1%nat)
      * (z 1%nat - x 1%nat).
Proof. linalg. ring. Qed.

Lemma UpdateLidar_inv (s s' : UKF) (m : MeasurementPackage) :
  UpdateLidar s m = Ok s' ->
  exists Si,
    lidar_det (P_pred_ s) <> 0 /\
    Si 0%nat 0%nat = (P_pred_ s 1%nat 1%nat + 0.0225) / lidar_det (P_pred_ s) /\
    Si 0%nat 1%nat = - P_pred_ s 0%nat 1%nat / lidar_det (P_pred_ s) /\
    Si 1%nat 0%nat = - P_pred_ s 1%nat 0%nat / lidar_det (P_pred_ s) /\
    Si 1%nat 1%nat = (P_pred_ s 0%nat 0%nat + 0.0225) / lidar_det (P_pred_ s) /\
    (forall r,
        x_pred_ s' r
        = x_pred_ s r
          + (P_pred_ s r 0%nat * Si 0%nat 0%nat + P_pred_ s r 1%nat * Si 1%nat 0%nat)
            * (raw_measurements_ m 0%nat - x_pred_ s 0%nat)
          + (P_pred_ s r 0%nat * Si 0%nat 1%nat + P_pred_ s r 1%nat * Si 1%nat 1%nat)
            * (raw_measurements_ m 1%nat - x_pred_ s 1%nat)) /\
    (forall r c, (r < 5)%nat ->
        P_pred_ s' r c
        = P_pred_ s r c
          - (P_pred_ s r 0%nat * Si 0%nat 0%nat + P_pred_ s r 1%nat * Si 1%nat 0%nat)
            * P_pred_ s 0%nat c
          - (P_pred_ s r 0%nat * Si 0%nat 1%nat + P_pred_ s r 1%nat * Si 1%nat 1%nat)
            * P_pred_ s 1%nat c) /\
    (use_laser_ s' = use_laser_ s /\ use_radar_ s' = use_radar_ s /\
     is_initialized_ s' = is_initialized_ s /\
     previous_timestamp_ s' = previous_timestamp_ s /\
     Xsig_pred_ s' = Xsig_pred_ s /\ weights_ s' = weights_ s /\
     Xsig_aug s' = Xsig_aug s /\ x_aug s' = x_aug s /\ P_aug s' = P_aug s).
Proof.
  intros H. unfold UpdateLidar in H. cbv zeta in H.
  destruct (inverse 2 _) as [Si|e] eqn:HSi; [|discriminate].
  cbn [bind] in H. injection H as <-.
  destruct (lidar_inverse_entries _ _ HSi) as (Hdet & H00 & H01 & H10 & H11).
  exists Si. repeat (split; [assumption|]).
  cbv beta iota delta [set_P_pred set_x_pred P_pred_ x_pred_].
  fold (P_pred_ s). fold (x_pred_ s).
  split; [|split].
  - intros r. apply lidar_state_entry.
  - intros r c Hr. now apply lidar_covariance_entry.
  - repeat split; reflexivity.
Qed.

(** X6.  The lidar update fails exactly when the innovation covariance is
    singular, that is when (P00 + 0.0225)(P11 + 0.0225) - P01 P10 = 0, and then
    with [Singular]; otherwise it succeeds and changes the state and the
    covariance only. *)
Theorem lidar_update_outcome (s : UKF) (m : MeasurementPackage) :
  (lidar_det (P_pred_ s) = 0 -> UpdateLidar s m = Err Singular) /\
  (lidar_det (P_pred_ s) <> 0 ->
   exists s',
     UpdateLidar s m = Ok s' /\
     use_laser_ s' = use_laser_ s /\ use_radar_ s' = use_radar_ s /\
     is_initialized_ s' = is_initialized_ s /\
     previous_timestamp_ s' = previous_timestamp_ s /\
     Xsig_pred_ s' = Xsig_pred_ s /\ weights_ s' = weights_ s /\
     Xsig_aug s' = Xsig_aug s /\ x_aug s' = x_aug s /\ P_aug s' = P_aug s).
Proof.
  split; [apply UpdateLidar_singular|].
  intros Hdet. destruct (UpdateLidar_heading s m Hdet) as (s' & Hs' & _).
  exists s'. split; [exact Hs'|].
  destruct (UpdateLidar_inv s s' m Hs') as (Si & _ & _ & _ & _ & _ & _ & _ & Hrest).
  exact Hrest.
Qed.

(** X7.  A lidar measurement equal to the predicted position leaves every
    component of the state as it is. *)
Theorem lidar_zero_innovation (s : UKF) (m : MeasurementPackage) :
  lidar_det (P_pred_ s) <> 0 ->
  raw_measurements_ m 0%nat = x_pred_ s 0%nat ->
  raw_measurements_ m 1%nat = x_pred_ s 1%nat ->
  exists s',
    UpdateLidar s m = Ok s' /\ forall r, x_pred_ s' r = x_pred_ s r.
Proof.
  intros Hdet Hz0 Hz1.
  destruct (UpdateLidar_heading s m Hdet) as (s' & Hs' & _).
  exists s'. split; [exact Hs'|]. intros r.
  destruct (UpdateLidar_inv s s' m Hs') as (Si & _ & _ & _ & _ & _ & Hx & _).
  rewrite Hx, Hz0, Hz1. ring.
Qed.

Lemma lidar_zero_innovation_witness :
  exists s',
    UpdateLidar (run_s1 true) run_first = Ok s' /\
    forall r, x_pred_ s' r = x_pred_ (run_s1 true) r.
Proof.
  apply (lidar_zero_innovation (run_s1 true) run_first).
  - cbv [lidar_det run_s1 P_pred_ run_P]. lra.
  - reflexivity.
  - reflexivity.
Defined.

(** X8.  When the two positions are uncorrelated with positive variances, the
    lidar update moves each position the fraction P/(P + 0.0225) of the way to
    its measurement, and the new position variance P·0.0225/(P + 0.0225) is
    positive and below both the old variance and the sensor's 0.0225. *)
Theorem lidar_update_uncorrelated (s : UKF) (m : MeasurementPackage) :
  P_pred_ s 0%nat 1%nat = 0 -> P_pred_ s 1%nat 0%nat = 0 ->
  0 < P_pred_ s 0%nat 0%nat -> 0 < P_pred_ s 1%nat 1%nat ->
  exists s',
    UpdateLidar s m = Ok s' /\
    x_pred_ s' 0%nat
    = x_pred_ s 0%nat
      + P_pred_ s 0%nat 0%nat / (P_pred_ s 0%nat 0%nat + 0.0225)
        * (raw_measurements_ m 0%nat - x_pred_ s 0%nat) /\
    x_pred_ s' 1%nat
    = x_pred_ s 1%nat
      + P_pred_ s 1%nat 1%nat / (P_pred_ s 1%nat 1%nat + 0.0225)
        * (raw_measurements_ m 1%nat - x_pred_ s 1%nat) /\
    P_pred_ s' 0%nat 0%nat
    = P_pred_ s 0%nat 0%nat * 0.0225 / (P_pred_ s 0%nat 0%nat + 0.0225) /\
    P_pred_ s' 1%nat 1%nat
    = P_pred_ s 1%nat 1%nat * 0.0225 / (P_pred_ s 1%nat 1%nat + 0.0225) /\
    0 < P_pred_ s' 0%nat 0%nat < P_pred_ s 0%nat 0%nat /\
    P_pred_ s' 0%nat 0%nat < 0.0225 /\
    0 < P_pred_ s' 1%nat 1%nat < P_pred_ s 1%nat 1%nat /\
    P_pred_ s' 1%nat 1%nat < 0.0225.
Proof.
  intros H01 H10 H00 H11.
  assert (Hdet : lidar_det (P_pred_ s) <> 0).
  { unfold lidar_det. rewrite H01, H10. nra. }
  destruct (UpdateLidar_heading s m Hdet) as (s' & Hs' & _).
  exists s'. split; [exact Hs'|].
  destruct (UpdateLidar_inv s s' m Hs')
    as (Si & _ & S00 & S01 & S10 & S11 & Hx & HP & _).
  unfold lidar_det in S00, S01, S10, S11.
  rewrite H01, H10 in S00, S01, S10, S11.
  set (a := P_pred_ s 0%nat 0%nat) in *. set (b := P_pred_ s 1%nat 1%nat) in *.
  assert (E0 : x_pred_ s' 0%nat
               = x_pred_ s 0%nat
                 + a / (a + 0.0225) * (raw_measurements_ m 0%nat - x_pred_ s 0%nat)).
  { rewrite Hx. fold a. rewrite H01, S00, S01, S10. field. lra. }
  assert (E1 : x_pred_ s' 1%nat
               = x_pred_ s 1%nat
                 + b / (b + 0.0225) * (raw_measurements_ m 1%nat - x_pred_ s 1%nat)).
  { rewrite Hx. fold b. rewrite H10, S11, S01, S10. field. lra. }
  assert (V0 : P_pred_ s' 0%nat 0%nat = a * 0.0225 / (a + 0.0225)).
  { rewrite HP by lia. fold a. rewrite H01, H10, S00, S01, S10. field. lra. }
  assert (V1 : P_pred_ s' 1%nat 1%nat = b * 0.0225 / (b + 0.0225)).
  { rewrite HP by lia. fold b. rewrite H01, H10, S11, S01, S10. field. lra. }
  assert (Ha : 0 < / (a + 0.0225)) by (apply Rinv_0_lt_compat; lra).
  assert (Hb : 0 < / (b + 0.0225)) by (apply Rinv_0_lt_compat; lra).
  assert (Fa : a * 0.0225 / (a + 0.0225) = a - a * a * / (a + 0.0225))
    by (field; lra).
  assert (Ga : a * 0.0225 / (a + 0.0225) = 0.0225 - 0.0225 * 0.0225 * / (a + 0.0225))
    by (field; lra).
  assert (Fb : b * 0.0225 / (b + 0.0225) = b - b * b * / (b + 0.0225))
    by (field; lra).
  assert (Gb : b * 0.0225 / (b + 0.0225) = 0.0225 - 0.0225 * 0.0225 * / (b + 0.0225))
    by (field; lra).
  repeat split; try assumption.
  - rewrite V0. unfold Rdiv. nra.
  - rewrite V0, Fa. nra.
  - rewrite V0, Ga. nra.
  - rewrite V1. unfold Rdiv. nra.
  - rewrite V1, Fb. nra.
  - rewrite V1, Gb. nra.
Qed.

Lemma lidar_update_uncorrelated_witness :
  exists s',
    UpdateLidar (run_s1 true) run_second = Ok s' /\
    x_pred_ s' 0%nat
    = x_pred_ (run_s1 true) 0%nat
      + P_pred_ (run_s1 true) 0%nat 0%nat
        / (P_pred_ (run_s1 true) 0%nat 0%nat + 0.0225)
        * (raw_measurements_ run_second 0%nat - x_pred_ (run_s1 true) 0%nat) /\
    x_pred_ s' 1%nat
    = x_pred_ (run_s1 true) 1%nat
      + P_pred_ (run_s1 true) 1%nat 1%nat
        / (P_pred_ (run_s1 true) 1%nat 1%nat + 0.0225)
        * (raw_measurements_ run_second 1%nat - x_pred_ (run_s1 true) 1%nat) /\
    P_pred_ s' 0%nat 0%nat
    = P_pred_ (run_s1 true) 0%nat 0%nat * 0.0225
      / (P_pred_ (run_s1 true) 0%nat 0%nat + 0.0225) /\
    P_pred_ s' 1%nat 1%nat
    = P_pred_ (run_s1 true) 1%nat 1%nat * 0.0225
      / (P_pred_ (run_s1 true) 1%nat 1%nat + 0.0225) /\
    0 < P_pred_ s' 0%nat 0%nat < P_pred_ (run_s1 true) 0%nat 0%nat /\
    P_pred_ s' 0%nat 0%nat < 0.0225 /\
    0 < P_pred_ s' 1%nat 1%nat < P_pred_ (run_s1 true) 1%nat 1%nat /\
    P_pred_ s' 1%nat 1%nat < 0.0225.
Proof.
  apply (lidar_update_uncorrelated (run_s1 true) run_second).
  - reflexivity.
  - reflexivity.
  - cbv [run_s1 P_pred_ run_P]. lra.
  - cbv [run_s1 P_pred_ run_P]. lra.
Defined.

(** ** The radar measurement model away from the origin *)

Lemma range_zero (px py : R) : sqrt (px * px + py * py) = 0 <-> px = 0 /\ py = 0.
Proof.
  split.
  - intros H. apply sqrt_eq_0 in H; [|nra]. split; nra.
  - intros [-> ->]. replace (0 * 0 + 0 * 0) with 0 by lra. apply sqrt_0.
Qed.

Lemma for_res_from_bounded {S : Type} (body : nat -> S -> res S)
      (pure : nat -> S -> S) :
  forall n lo init,
    (forall i a, (lo <= i < lo + n)%nat -> body i a = Ok (pure i a)) ->
    for_res_from lo n body init = Ok (for_from lo n pure init).
Proof.
  unfold for_res_from, for_from.
  induction n as [|n IH]; intros lo init Hb; simpl; [reflexivity|].
  rewrite Hb by lia. apply IH. intros i a Hi. apply Hb. lia.
Qed.

(** X9.  For a sigma point away from the origin the radar measurement model
    is defined: the range is positive with range² = px² + py², the bearing lies
    in (-π, π], and the range rate, the speed projected on the line of sight,
    is at most the speed in magnitude. *)
Theorem radar_model_bounds (X : Mat) (i : nat) :
  ~ (X 0%nat i = 0 /\ X 1%nat i = 0) ->
  exists z,
    radar_column X i = Ok z /\
    0 < z 0%nat /\
    z 0%nat * z 0%nat = X 0%nat i * X 0%nat i + X 1%nat i * X 1%nat i /\
    - PI < z 1%nat <= PI /\
    z 0%nat * z 2%nat
    = X 0%nat i * (cos (X 3%nat i) * X 2%nat i)
      + X 1%nat i * (sin (X 3%nat i) * X 2%nat i) /\
    Rabs (z 2%nat) <= Rabs (X 2%nat i).
Proof.
  intros Hne.
  set (px := X 0%nat i) in *. set (py := X 1%nat i) in *.
  set (v := X 2%nat i). set (yaw := X 3%nat i).
  set (rho := sqrt (px * px + py * py)).
  assert (Hrho0 : rho <> 0) by (intros H; apply Hne; now apply range_zero).
  assert (Hpos : 0 < rho).
  { destruct (sqrt_pos (px * px + py * py)) as [H|H]; [exact H|].
    exfalso. apply Hrho0. unfold rho. now rewrite <- H. }
  assert (Hsq : rho * rho = px * px + py * py) by (apply sqrt_sqrt; nra).
  unfold radar_column. fold px py v yaw rho.
  rewrite (checked_div_ok _ _ Hrho0). cbn [bind].
  eexists. split; [reflexivity|]. cbv [vec3].
  split; [exact Hpos|]. split; [exact Hsq|]. split; [apply atan2_range|].
  split; [field; exact Hrho0|].
  set (q := (px * (cos yaw * v) + py * (sin yaw * v)) / rho).
  assert (Hq : q * rho = v * (px * cos yaw + py * sin yaw))
    by (unfold q; field; exact Hrho0).
  pose proof (sin2_cos2 yaw) as Hsc. unfold Rsqr in Hsc.
  apply Rsqr_le_abs_0. unfold Rsqr.
  assert (Hcs : (px * cos yaw + py * sin yaw) * (px * cos yaw + py * sin yaw)
                <= rho * rho).
  { rewrite Hsq.
    pose proof (Rle_0_sqr (px * sin yaw - py * cos yaw)) as Hnn.
    unfold Rsqr in Hnn.
    assert (E : (px * cos yaw + py * sin yaw) * (px * cos yaw + py * sin yaw)
                + (px * sin yaw - py * cos yaw) * (px * sin yaw - py * cos yaw)
                = (px * px + py * py)
                  * (sin yaw * sin yaw + cos yaw * cos yaw)) by ring.
    rewrite Hsc in E. lra. }
  assert (Hqq : (q * rho) * (q * rho) <= (v * v) * (rho * rho)).
  { rewrite Hq. pose proof (Rle_0_sqr v) as Hvv. unfold Rsqr in Hvv.
    replace (v * (px * cos yaw + py * sin yaw)
             * (v * (px * cos yaw + py * sin yaw)))
      with (v * v * ((px * cos yaw + py * sin yaw)
                     * (px * cos yaw + py * sin yaw))) by ring.
    apply Rmult_le_compat_l; assumption. }
  assert (Hr2 : 0 < rho * rho) by nra.
  apply Rmult_le_reg_r with (rho * rho); [exact Hr2|]. lra.
Qed.

Lemma radar_model_bounds_witness :
  exists z,
    radar_column run_Xpred 3 = Ok z /\
    0 < z 0%nat /\
    z 0%nat * z 0%nat
    = run_Xpred 0%nat 3%nat * run_Xpred 0%nat 3%nat
      + run_Xpred 1%nat 3%nat * run_Xpred 1%nat 3%nat /\
    - PI < z 1%nat <= PI /\
    z 0%nat * z 2%nat
    = run_Xpred 0%nat 3%nat * (cos (run_Xpred 3%nat 3%nat) * run_Xpred 2%nat 3%nat)
      + run_Xpred 1%nat 3%nat * (sin (run_Xpred 3%nat 3%nat) * run_Xpred 2%nat 3%nat) /\
    Rabs (z 2%nat) <= Rabs (run_Xpred 2%nat 3%nat).
Proof.
  apply (radar_model_bounds run_Xpred 3).
  cbv [run_Xpred vec5]. pose proof sqrt3_bounds as Hs. intros [H0 _]. lra.
Defined.

Lemma radar_sigma_points_ok (X : Mat) :
  (forall i, (i < 15)%nat -> ~ (X 0%nat i = 0 /\ X 1%nat i = 0)) ->
  exists Zsig,
    radar_sigma_points X = Ok Zsig /\
    forall i, (i < 15)%nat ->
      Zsig 0%nat i = sqrt (X 0%nat i * X 0%nat i + X 1%nat i * X 1%nat i) /\
      Zsig 1%nat i = atan2 (X 1%nat i) (X 0%nat i) /\
      Zsig 2%nat i
      = (X 0%nat i * (cos (X 3%nat i) * X 2%nat i)
         + X 1%nat i * (sin (X 3%nat i) * X 2%nat i))
        / sqrt (X 0%nat i * X 0%nat i + X 1%nat i * X 1%nat i).
Proof.
  intros Hall.
  set (pure := fun i (Z : Mat) =>
         set_coef
           (set_coef
              (set_coef Z 0 i
                 (sqrt (X 0%nat i * X 0%nat i + X 1%nat i * X 1%nat i)))
              1 i (atan2 (X 1%nat i) (X 0%nat i)))
           2 i
           ((X 0%nat i * (cos (X 3%nat i) * X 2%nat i)
             + X 1%nat i * (sin (X 3%nat i) * X 2%nat i))
            / sqrt (X 0%nat i * X 0%nat i + X 1%nat i * X 1%nat i))).
  exists (for_loop 15 pure mzero). split.
  - unfold radar_sigma_points, for_res, for_loop.
    apply (for_res_from_bounded _ pure). intros i a Hi.
    unfold radar_column. rewrite checked_div_ok.
    + reflexivity.
    + intros H0. apply (Hall i); [unfold n_aug_ in Hi; lia|].
      now apply range_zero.
  - intros i Hi. unfold pure.
    do 15 (destruct i as [|i]; [unroll; repeat split; reflexivity|]). lia.
Qed.

(** X10.  The first loop of the radar update fails, with a division by zero,
    as soon as one of the fifteen predicted sigma points sits at the origin;
    when none does it succeeds and column i holds range, bearing and range
    rate of sigma point i. *)
Theorem radar_mapping_fails_iff_origin (X : Mat) :
  ((exists i, (i < 15)%nat /\ X 0%nat i = 0 /\ X 1%nat i = 0) ->
   radar_sigma_points X = Err DivByZero) /\
  ((forall i, (i < 15)%nat -> ~ (X 0%nat i = 0 /\ X 1%nat i = 0)) ->
   exists Zsig,
     radar_sigma_points X = Ok Zsig /\
     forall i, (i < 15)%nat ->
       Zsig 0%nat i = sqrt (X 0%nat i * X 0%nat i + X 1%nat i * X 1%nat i) /\
       Zsig 1%nat i = atan2 (X 1%nat i) (X 0%nat i) /\
       Zsig 2%nat i
       = (X 0%nat i * (cos (X 3%nat i) * X 2%nat i)
          + X 1%nat i * (sin (X 3%nat i) * X 2%nat i))
         / sqrt (X 0%nat i * X 0%nat i + X 1%nat i * X 1%nat i)).
Proof.
  split.
  - intros (i & Hi & Hx & Hy). now apply (radar_sigma_points_at_origin X i).
  - apply radar_sigma_points_ok.
Qed.

(** ** What a call keeps and what it can fail with *)

Lemma UpdateRadar_frame (s s' : UKF) (m : MeasurementPackage) :
  UpdateRadar s m = Ok s' ->
  use_laser_ s' = use_laser_ s /\ use_radar_ s' = use_radar_ s /\
  is_initialized_ s' = is_initialized_ s /\
  previous_timestamp_ s' = previous_timestamp_ s.
Proof.
  intros H. unfold UpdateRadar in H.
  destruct (radar_sigma_points (Xsig_pred_ s)) as [Zsig|e]; [|discriminate].
  cbn [bind] in H. cbv zeta in H.
  destruct (inverse 3 _) as [Si|e]; [|discriminate].
  cbn [bind] in H. injection H as <-. repeat split; reflexivity.
Qed.

Lemma radar_fold_error (X : Mat) (l : list nat) :
  forall acc e,
    (forall e', acc = Err e' -> e' = DivByZero) ->
    fold_left
      (fun acc i =>
         a <- acc ;;
         (c <- radar_column X i ;;
          Ok (set_coef (set_coef (set_coef a 0 i (c 0%nat)) 1 i (c 1%nat))
                       2 i (c 2%nat))))
      l acc = Err e ->
    e = DivByZero.
Proof.
  induction l as [|i l IH]; intros acc e Hacc H; simpl in H.
  - now apply Hacc.
  - refine (IH _ _ _ H). intros e' He'.
    destruct acc as [a|e0]; cbn [bind] in He'.
    + destruct (radar_column_cases X i) as [Hc|[v Hc]]; rewrite Hc in He';
        cbn [bind] in He'; congruence.
    + apply Hacc. congruence.
Qed.

Lemma UpdateRadar_error (s : UKF) (m : MeasurementPackage) (e : error) :
  UpdateRadar s m = Err e -> e = DivByZero \/ e = Singular.
Proof.
  intros H. unfold UpdateRadar in H.
  destruct (radar_sigma_points (Xsig_pred_ s)) as [Zsig|e0] eqn:HZ.
  - cbn [bind] in H. cbv zeta in H. unfold inverse in H.
    match type of H with
    | context [Req_dec_T ?d 0] => destruct (Req_dec_T d 0)
    end; cbn [bind] in H; [right; congruence|discriminate].
  - cbn [bind] in H. left. injection H as <-.
    unfold radar_sigma_points, for_res, for_res_from in HZ.
    refine (radar_fold_error _ _ _ _ _ HZ). discriminate.
Qed.

Lemma UpdateLidar_error (s : UKF) (m : MeasurementPackage) (e : error) :
  UpdateLidar s m = Err e -> e = Singular.
Proof.
  intros H. destruct (Req_dec_T (lidar_det (P_pred_ s)) 0) as [H0|Hdet].
  - rewrite (UpdateLidar_singular s m H0) in H. congruence.
  - destruct (UpdateLidar_heading s m Hdet) as (s' & Hs' & _). congruence.
Qed.

(** X11.  Every successful call stores the measurement's timestamp and
    leaves the filter initialized, and never changes the two sensor toggles; so
    the time step of the next call is the difference of the two timestamps. *)
Theorem call_bookkeeping (s s' : UKF) (m : MeasurementPackage) :
  ProcessMeasurement s m = Ok s' ->
  previous_timestamp_ s' = timestamp_ m /\
  is_initialized_ s' = true /\
  use_laser_ s' = use_laser_ s /\ use_radar_ s' = use_radar_ s /\
  forall m', elapsed s' m' = IZR (timestamp_ m' - timestamp_ m) / 1000000.0.
Proof.
  intros H.
  assert (Hmain : previous_timestamp_ s' = timestamp_ m /\
                  is_initialized_ s' = true /\
                  use_laser_ s' = use_laser_ s /\ use_radar_ s' = use_radar_ s).
  { unfold ProcessMeasurement in H.
    destruct (is_initialized_ s) eqn:Hinit; cbn [negb] in H.
    - fold (elapsed s m) in H.
      destruct (Prediction s (elapsed s m)) as [s1|e] eqn:HP; [|discriminate].
      cbn [bind] in H.
      destruct (Prediction_factor s s1 _ HP) as [L HL].
      destruct (Prediction_ok s (elapsed s m) L HL)
        as (t & Ht & _ & _ & _ & _ & Hl & Hr & Hi & _).
      rewrite Ht in HP. injection HP as ->.
      destruct (sensor_type_ m).
      + destruct (UpdateLidar s1 m) as [s2|e] eqn:HU; [|discriminate].
        cbn [bind] in H. injection H as <-.
        destruct (UpdateLidar_inv s1 s2 m HU)
          as (Si & _ & _ & _ & _ & _ & _ & _ & Hl2 & Hr2 & Hi2 & _).
        unfold set_previous_timestamp.
        cbn [previous_timestamp_ is_initialized_ use_laser_ use_radar_].
        repeat split; congruence.
      + destruct (UpdateRadar s1 m) as [s2|e] eqn:HU; [|discriminate].
        cbn [bind] in H. injection H as <-.
        destruct (UpdateRadar_frame s1 s2 m HU) as (Hl2 & Hr2 & Hi2 & _).
        unfold set_previous_timestamp.
        cbn [previous_timestamp_ is_initialized_ use_laser_ use_radar_].
        repeat split; congruence.
    - injection H as <-. destruct (sensor_type_ m); repeat split; reflexivity. }
  destruct Hmain as (Ht & Hi & Hl & Hr).
  repeat split; try assumption.
  intros m'. unfold elapsed. now rewrite Ht.
Qed.

Lemma call_bookkeeping_witness :
  exists s',
    ProcessMeasurement (run_s1 true) run_second = Ok s' /\
    previous_timestamp_ s' = timestamp_ run_second /\
    is_initialized_ s' = true /\
    use_laser_ s' = use_laser_ (run_s1 true) /\
    use_radar_ s' = use_radar_ (run_s1 true) /\
    forall m', elapsed s' m' = IZR (timestamp_ m' - timestamp_ run_second) / 1000000.0.
Proof.
  destruct (run_second_call true) as (s3 & H & _).
  exists s3. split; [exact H|].
  exact (call_bookkeeping (run_s1 true) s3 run_second H).
Defined.

(** X12.  A call can fail only on an initialized filter.  A lidar call fails
    with [NumericalIssue] or [Singular], never with a division by zero; a radar
    call may also fail with [DivByZero].  [NumericalIssue] is the failure of the
    factorization of the augmented covariance, and of nothing else. *)
Theorem call_errors (s : UKF) (m : MeasurementPackage) (e : error) :
  ProcessMeasurement s m = Err e ->
  is_initialized_ s = true /\
  match sensor_type_ m with
  | LASER => e = NumericalIssue \/ e = Singular
  | RADAR => e = NumericalIssue \/ e = DivByZero \/ e = Singular
  end /\
  (e = NumericalIssue <->
   llt n_aug_ (augmented_covariance s) = Err NumericalIssue).
Proof.
  intros H. unfold ProcessMeasurement in H.
  destruct (is_initialized_ s) eqn:Hinit; cbn [negb] in H; [|discriminate].
  split; [reflexivity|].
  destruct (Prediction s _) as [s1|e1] eqn:HP; cbn [bind] in H.
  - destruct (Prediction_factor s s1 _ HP) as [L HL]. rewrite HL.
    destruct (sensor_type_ m).
    + destruct (UpdateLidar s1 m) as [s2|e2] eqn:HU; cbn [bind] in H;
        [discriminate|].
      injection H as <-. pose proof (UpdateLidar_error s1 m e2 HU) as ->.
      split; [now right|]. split; discriminate.
    + destruct (UpdateRadar s1 m) as [s2|e2] eqn:HU; cbn [bind] in H;
        [discriminate|].
      injection H as <-.
      destruct (UpdateRadar_error s1 m e2 HU) as [-> | ->];
        (split; [auto|split; discriminate]).
  - injection H as <-.
    destruct (Prediction_error s _ e1 HP) as [-> HL]. rewrite HL.
    split; [destruct (sensor_type_ m); auto|]. split; reflexivity.
Qed.

Lemma call_errors_witness :
  is_initialized_ (run_s1 true) = true /\
  match sensor_type_ run_radar with
  | LASER => DivByZero = NumericalIssue \/ DivByZero = Singular
  | RADAR => DivByZero = NumericalIssue \/ DivByZero = DivByZero
             \/ DivByZero = Singular
  end /\
  (DivByZero = NumericalIssue <->
   llt n_aug_ (augmented_covariance (run_s1 true)) = Err NumericalIssue).
Proof.
  exact (call_errors (run_s1 true) run_radar DivByZero (run_radar_call true)).
Defined.

(** ** The scratch members never reach the prediction *)

Lemma augmented_mean_ext (s t : UKF) :
  (forall r, (r < 5)%nat -> x_pred_ s r = x_pred_ t r) ->
  augmented_mean s = augmented_mean t.
Proof.
  intros H. extensionality r. unfold augmented_mean.
  destruct r as [|[|[|[|[|[|[|r]]]]]]]; unroll; try reflexivity; apply H; lia.
Qed.

Lemma augmented_covariance_ext (s t : UKF) :
  (forall r c, (r < 5)%nat -> (c < 5)%nat -> P_pred_ s r c = P_pred_ t r c) ->
  augmented_covariance s = augmented_covariance t.
Proof.
  intros H. extensionality r. extensionality c. unfold augmented_covariance.
  run_cases r c; unroll; try reflexivity; apply H; lia.
Qed.

(** X13.  The prediction reads the state and the covariance only: two
    filters that agree on them, whatever their sigma-point matrices, weights
    and augmented members hold, predict the same mean, covariance, sigma points
    and weights. *)
Theorem prediction_ignores_scratch (s t s' : UKF) (delta_t : R) :
  (forall r, (r < 5)%nat -> x_pred_ s r = x_pred_ t r) ->
  (forall r c, (r < 5)%nat -> (c < 5)%nat -> P_pred_ s r c = P_pred_ t r c) ->
  Prediction s delta_t = Ok s' ->
  exists t',
    Prediction t delta_t = Ok t' /\
    (forall r, (r < 5)%nat -> x_pred_ t' r = x_pred_ s' r) /\
    (forall r c, (r < 5)%nat -> (c < 5)%nat -> P_pred_ t' r c = P_pred_ s' r c) /\
    (forall r k, (r < 5)%nat -> (k < 15)%nat ->
                 Xsig_pred_ t' r k = Xsig_pred_ s' r k) /\
    (forall k, (k < 15)%nat -> weights_ t' k = weights_ s' k).
Proof.
  intros Hx HP H.
  destruct (Prediction_factor s s' delta_t H) as [L HL].
  assert (HLt : llt n_aug_ (augmented_covariance t) = Ok L)
    by now rewrite <- (augmented_covariance_ext s t HP).
  destruct (Prediction_ok s delta_t L HL) as (u & Hu & HXs & HWs & Hxs & HPs & _).
  rewrite Hu in H. injection H as ->.
  destruct (Prediction_ok t delta_t L HLt) as (t' & Ht' & HXt & HWt & Hxt & HPt & _).
  exists t'. split; [exact Ht'|].
  rewrite <- (augmented_mean_ext s t Hx) in HXt.
  assert (HX : forall r k, (r < 5)%nat -> (k < 15)%nat ->
                           Xsig_pred_ t' r k = Xsig_pred_ s' r k).
  { intros r k Hr Hk. now rewrite HXt, HXs, !predicted_points_at by lia. }
  assert (HW : forall k, (k < 15)%nat -> weights_ t' k = weights_ s' k).
  { intros k Hk. rewrite HWt, HWs. destruct k as [|k].
    - now rewrite !weights_of_0.
    - now rewrite !weights_of_others by lia. }
  assert (Hmean : forall r, (r < 5)%nat -> x_pred_ t' r = x_pred_ s' r).
  { intros r Hr. rewrite Hxt, Hxs, !weighted_mean_at.
    apply sum_n_ext. intros k Hk. now rewrite HW, HX by lia. }
  split; [exact Hmean|]. split; [|split; [exact HX|exact HW]].
  intros r c Hr Hc. rewrite HPt, HPs, !weighted_covariance_at.
  apply sum_n_ext. intros k Hk. unfold vset, vsub, col.
  rewrite HW by lia. rewrite !HX by lia. rewrite !Hmean by lia.
  reflexivity.
Qed.

Lemma prediction_ignores_scratch_witness :
  exists s',
    Prediction (run_s1 true) 1 = Ok s' /\
    exists t',
      Prediction (mkUKF false false true (vec5 0 0 0 0 0) run_P
                        Identity (vec2 1 1) Identity (vec2 3 4) Identity 7) 1
      = Ok t' /\
      (forall r, (r < 5)%nat -> x_pred_ t' r = x_pred_ s' r) /\
      (forall r c, (r < 5)%nat -> (c < 5)%nat -> P_pred_ t' r c = P_pred_ s' r c) /\
      (forall r k, (r < 5)%nat -> (k < 15)%nat ->
                   Xsig_pred_ t' r k = Xsig_pred_ s' r k) /\
      (forall k, (k < 15)%nat -> weights_ t' k = weights_ s' k).
Proof.
  destruct (run_prediction true) as (s2 & H & _).
  exists s2. split; [exact H|].
  apply (prediction_ignores_scratch (run_s1 true) _ s2 1); [| |exact H].
  - intros r _. reflexivity.
  - intros r c _ _. reflexivity.
Defined.

(** ** The geometry of the process model *)

(** X14.  In the straight-line branch (|heading rate| ≤ 1e-3) a sigma point
    moves along its old heading by v·Δt + ½·ν_a·Δt². *)
Theorem straight_step_along_heading (X : Mat) (i : nat) (delta_t : R) :
  ~ Rabs (X 4%nat i) > 0.001 ->
  exists p,
    predict_column X i delta_t = Ok p /\
    p 0%nat - X 0%nat i
    = (X 2%nat i * delta_t + 0.5 * X 5%nat i * delta_t * delta_t)
      * cos (X 3%nat i) /\
    p 1%nat - X 1%nat i
    = (X 2%nat i * delta_t + 0.5 * X 5%nat i * delta_t * delta_t)
      * sin (X 3%nat i) /\
    (p 0%nat - X 0%nat i) * (p 0%nat - X 0%nat i)
    + (p 1%nat - X 1%nat i) * (p 1%nat - X 1%nat i)
    = (X 2%nat i * delta_t + 0.5 * X 5%nat i * delta_t * delta_t)
      * (X 2%nat i * delta_t + 0.5 * X 5%nat i * delta_t * delta_t).
Proof.
  intros Hstraight. rewrite predict_column_ok. unfold process_model.
  destruct (Rgt_dec _ _) as [|_]; [contradiction|].
  eexists. split; [reflexivity|]. cbv [straight vec5].
  pose proof (sin2_cos2 (X 3%nat i)) as Hsc. unfold Rsqr in Hsc.
  split; [ring|]. split; [ring|].
  set (d := X 2%nat i * delta_t + 0.5 * X 5%nat i * delta_t * delta_t).
  transitivity (d * d * (sin (X 3%nat i) * sin (X 3%nat i)
                         + cos (X 3%nat i) * cos (X 3%nat i))).
  - unfold d. ring.
  - rewrite Hsc. ring.
Qed.

Lemma straight_step_along_heading_witness :
  exists p,
    predict_column run_Xaug 3 1 = Ok p /\
    p 0%nat - run_Xaug 0%nat 3%nat
    = (run_Xaug 2%nat 3%nat * 1 + 0.5 * run_Xaug 5%nat 3%nat * 1 * 1)
      * cos (run_Xaug 3%nat 3%nat) /\
    p 1%nat - run_Xaug 1%nat 3%nat
    = (run_Xaug 2%nat 3%nat * 1 + 0.5 * run_Xaug 5%nat 3%nat * 1 * 1)
      * sin (run_Xaug 3%nat 3%nat) /\
    (p 0%nat - run_Xaug 0%nat 3%nat) * (p 0%nat - run_Xaug 0%nat 3%nat)
    + (p 1%nat - run_Xaug 1%nat 3%nat) * (p 1%nat - run_Xaug 1%nat 3%nat)
    = (run_Xaug 2%nat 3%nat * 1 + 0.5 * run_Xaug 5%nat 3%nat * 1 * 1)
      * (run_Xaug 2%nat 3%nat * 1 + 0.5 * run_Xaug 5%nat 3%nat * 1 * 1).
Proof.
  apply (straight_step_along_heading run_Xaug 3 1).
  cbv [run_Xaug vec7]. rewrite Rabs_R0. lra.
Defined.



(** ** Feeding the filter its own position *)

(** X16.  A lidar measurement that carries the stored timestamp and the
    filter's own position leaves the state mean unchanged: the prediction over
    Δt = 0 keeps the mean and the update has no innovation. *)
Theorem refeeding_position_keeps_mean (s s' : UKF) (m : MeasurementPackage) :
  is_initialized_ s = true ->
  sensor_type_ m = LASER ->
  timestamp_ m = previous_timestamp_ s ->
  raw_measurements_ m 0%nat = x_pred_ s 0%nat ->
  raw_measurements_ m 1%nat = x_pred_ s 1%nat ->
  ProcessMeasurement s m = Ok s' ->
  forall r, (r < 5)%nat -> x_pred_ s' r = x_pred_ s r.
Proof.
  intros Hinit Hlaser Ht Hz0 Hz1 H r Hr.
  unfold ProcessMeasurement in H. rewrite Hinit, Hlaser, Ht in H.
  cbn [negb] in H. rewrite Z.sub_diag in H.
  replace (0 / 1000000.0) with 0 in H by lra.
  destruct (Prediction s 0) as [s1|e] eqn:HP; [|discriminate].
  cbn [bind] in H.
  destruct (UpdateLidar s1 m) as [s2|e] eqn:HU; [|discriminate].
  cbn [bind] in H. injection H as <-.
  change (x_pred_ (set_previous_timestamp (previous_timestamp_ s) s2))
    with (x_pred_ s2).
  destruct (Prediction_factor s s1 0 HP) as [L HL].
  assert (Hx : forall i, (i < 5)%nat -> x_pred_ s1 i = x_pred_ s i)
    by (intros i Hi; exact (prediction_still s s1 L i HL HP Hi)).
  destruct (UpdateLidar_inv s1 s2 m HU) as (Si & _ & _ & _ & _ & _ & Hx2 & _).
  rewrite Hx2, Hz0, Hz1, !Hx by lia. ring.
Qed.

Lemma run_refeed_call :
  exists s', ProcessMeasurement (run_s1 true) run_first = Ok s'.
Proof.
  destruct (prediction_still_cov (run_s1 true) run_L (run_llt true)
              (run_P_symmetric true) run_L_spread) as (s1 & Hs1 & HP).
  assert (Hdet : lidar_det (P_pred_ s1) <> 0).
  { unfold lidar_det. rewrite !HP by lia. cbv [run_s1 P_pred_ run_P]. lra. }
  destruct (UpdateLidar_heading s1 run_first Hdet) as (s2 & Hs2 & _).
  exists (set_previous_timestamp (timestamp_ run_first) s2).
  unfold ProcessMeasurement.
  change (is_initialized_ (run_s1 true)) with true. cbn [negb].
  replace (IZR (timestamp_ run_first - previous_timestamp_ (run_s1 true))
           / 1000000.0) with 0
    by (change (timestamp_ run_first - previous_timestamp_ (run_s1 true))%Z
          with 0%Z; lra).
  rewrite Hs1. cbn [bind]. change (sensor_type_ run_first) with LASER. cbv iota.
  now rewrite Hs2.
Qed.

Lemma refeeding_position_keeps_mean_witness :
  exists s',
    ProcessMeasurement (run_s1 true) run_first = Ok s' /\
    forall r, (r < 5)%nat -> x_pred_ s' r = x_pred_ (run_s1 true) r.
Proof.
  destruct run_refeed_call as (s' & H).
  exists s'. split; [exact H|].
  exact (refeeding_position_keeps_mean (run_s1 true) s' run_first
           eq_refl eq_refl eq_refl eq_refl eq_refl H).
Defined.

(** ** A radar measurement equal to the predicted one *)




(** ** From polar to Cartesian and back *)

Lemma atan_quotient (rho psi : R) :
  0 < rho -> - (PI / 2) < psi < PI / 2 ->
  atan (rho * sin psi / (rho * cos psi)) = psi.
Proof.
  intros Hrho Hpsi.
  assert (Hc : 0 < cos psi) by (apply cos_gt_0; lra).
  replace (rho * sin psi / (rho * cos psi)) with (tan psi)
    by (unfold tan; field; split; lra).
  now apply atan_tan.
Qed.

Lemma atan2_polar (rho phi : R) :
  0 < rho -> - PI < phi <= PI ->
  atan2 (rho * sin phi) (rho * cos phi) = phi.
Proof.
  intros Hrho [Hlo Hhi]. pose proof PI_gt_3 as HPI. unfold atan2.
  destruct (Rtotal_order phi (- (PI / 2))) as [H1|[H1|H1]].
  - (* -π < φ < -π/2 *)
    set (psi := phi + PI).
    assert (Hs : sin phi = - sin psi) by (unfold psi; rewrite neg_sin; lra).
    assert (Hc : cos phi = - cos psi) by (unfold psi; rewrite neg_cos; lra).
    assert (Hcp : 0 < cos psi) by (apply cos_gt_0; unfold psi; lra).
    assert (Hsp : 0 < sin psi) by (apply sin_gt_0; unfold psi; lra).
    rewrite Hs, Hc.
    destruct (Rlt_dec 0 (rho * - cos psi)) as [H|_]; [nra|].
    destruct (Rlt_dec (rho * - cos psi) 0) as [_|H]; [|nra].
    destruct (Rle_dec 0 (rho * - sin psi)) as [H|_]; [nra|].
    replace (rho * - sin psi / (rho * - cos psi))
      with (rho * sin psi / (rho * cos psi)) by (field; split; lra).
    rewrite atan_quotient by (unfold psi; lra). unfold psi. lra.
  - (* φ = -π/2 *)
    subst phi. rewrite cos_neg, sin_neg, cos_PI2, sin_PI2.
    destruct (Rlt_dec 0 (rho * 0)) as [H|_]; [lra|].
    destruct (Rlt_dec (rho * 0) 0) as [H|_]; [lra|].
    destruct (Rlt_dec 0 (rho * - (1))) as [H|_]; [lra|].
    destruct (Rlt_dec (rho * - (1)) 0) as [_|H]; [reflexivity|lra].
  - destruct (Rtotal_order phi (PI / 2)) as [H2|[H2|H2]].
    + (* -π/2 < φ < π/2 *)
      assert (Hc : 0 < cos phi) by (apply cos_gt_0; lra).
      destruct (Rlt_dec 0 (rho * cos phi)) as [_|H]; [|nra].
      apply atan_quotient; lra.
    + (* φ = π/2 *)
      subst phi. rewrite cos_PI2, sin_PI2.
      destruct (Rlt_dec 0 (rho * 0)) as [H|_]; [lra|].
      destruct (Rlt_dec (rho * 0) 0) as [H|_]; [lra|].
      destruct (Rlt_dec 0 (rho * 1)) as [_|H]; [reflexivity|lra].
    + (* π/2 < φ <= π *)
      set (psi := phi - PI).
      assert (Hs : sin phi = - sin psi).
      { replace phi with (psi + PI) by (unfold psi; lra). apply neg_sin. }
      assert (Hc : cos phi = - cos psi).
      { replace phi with (psi + PI) by (unfold psi; lra). apply neg_cos. }
      assert (Hcp : 0 < cos psi) by (apply cos_gt_0; unfold psi; lra).
      assert (Hsp : sin psi <= 0).
      { destruct Hhi as [Hhi|Hhi].
        - left. apply sin_lt_0_var; unfold psi; lra.
        - right. unfold psi. rewrite Hhi, Rminus_diag. apply sin_0. }
      rewrite Hs, Hc.
      destruct (Rlt_dec 0 (rho * - cos psi)) as [H|_]; [nra|].
      destruct (Rlt_dec (rho * - cos psi) 0) as [_|H]; [|nra].
      destruct (Rle_dec 0 (rho * - sin psi)) as [_|H]; [|nra].
      replace (rho * - sin psi / (rho * - cos psi))
        with (rho * sin psi / (rho * cos psi)) by (field; split; lra).
      rewrite atan_quotient by (unfold psi; lra). unfold psi. lra.
Qed.

(** X18.  Polar to Cartesian and back: a filter initialized from a radar
    measurement with range ρ > 0 and bearing φ in (-π, π] holds a state that
    the radar measurement model maps to range ρ and bearing φ again, and to
    range rate 0, since the initialization sets the speed to 0 whatever range
    rate was measured. *)
Theorem radar_initialization_round_trip
        (s s' : UKF) (m : MeasurementPackage) (X : Mat) (i : nat) :
  is_initialized_ s = false ->
  sensor_type_ m = RADAR ->
  0 < raw_measurements_ m 0%nat ->
  - PI < raw_measurements_ m 1%nat <= PI ->
  ProcessMeasurement s m = Ok s' ->
  (forall r, (r < 5)%nat -> X r i = x_pred_ s' r) ->
  exists z,
    radar_column X i = Ok z /\
    z 0%nat = raw_measurements_ m 0%nat /\
    z 1%nat = raw_measurements_ m 1%nat /\
    z 2%nat = 0.
Proof.
  intros Hinit Hradar Hrho Hphi H HX.
  unfold ProcessMeasurement in H. rewrite Hinit, Hradar in H. cbn [negb] in H.
  injection H as <-.
  set (rho := raw_measurements_ m 0%nat) in *.
  set (phi := raw_measurements_ m 1%nat) in *.
  assert (H0 : X 0%nat i = rho * cos phi) by (rewrite HX by lia; reflexivity).
  assert (H1 : X 1%nat i = rho * sin phi) by (rewrite HX by lia; reflexivity).
  assert (H2 : X 2%nat i = 0) by (rewrite HX by lia; reflexivity).
  assert (Hrange : sqrt (rho * cos phi * (rho * cos phi)
                         + rho * sin phi * (rho * sin phi)) = rho).
  { pose proof (sin2_cos2 phi) as Hsc. unfold Rsqr in Hsc.
    replace (rho * cos phi * (rho * cos phi) + rho * sin phi * (rho * sin phi))
      with (rho * rho * (sin phi * sin phi + cos phi * cos phi)) by ring.
    rewrite Hsc, Rmult_1_r. apply sqrt_square. lra. }
  unfold radar_column. rewrite H0, H1, H2, Hrange.
  rewrite checked_div_ok by lra. cbn [bind].
  eexists. split; [reflexivity|]. cbv [vec3].
  split; [reflexivity|]. split; [now apply atan2_polar|].
  field. lra.
Qed.

Lemma radar_initialization_round_trip_witness :
  exists z,
    radar_column
      (fun r _ => vec5 (2 * cos 0) (2 * sin 0) 0 0 0 r) 0 = Ok z /\
    z 0%nat = 2 /\ z 1%nat = 0 /\ z 2%nat = 0.
Proof.
  eapply (radar_initialization_round_trip
            (UKF_new run_mem) _ (mkMeas 5 RADAR (vec3 2 0 1))
            (fun r _ => vec5 (2 * cos 0) (2 * sin 0) 0 0 0 r) 0
            eq_refl eq_refl).
  - cbv [raw_measurements_ vec3]. lra.
  - cbv [raw_measurements_ vec3]. pose proof PI_gt_3. lra.
  - reflexivity.
  - intros r _. reflexivity.
Defined.

(** ** Turning steps compose *)


